(** * citationlint: reference-section parsing and DOI verification

    A shallow embedding of [src/extractor.py] and [src/verifier.py].

    Python [str] values are modelled as lists of characters.  A character is
    a code point below 256 (the Latin-1 block of Unicode), carried by
    [ascii]; the character classes of [re] ([\s], [\d], [\w]), [str.lower],
    [str.strip] and the case-insensitive comparison of [re.IGNORECASE] are
    the ones Python 3 uses for [str] on those code points.

    [int_of_digits] is the value of a string of digits.  [int()] itself
    raises [ValueError] for more than 4300 digits (the interpreter's
    default limit): [Extractor.int] has that exception, and
    [Extractor.parse_numbered_citations_raising] and
    [Extractor.extract_citations_raising] carry it through the segmenter to
    the [except Exception] of [extract_citations].  Where no number is that
    long they agree with [Extractor.parse_numbered_citations] and
    [Extractor.extract_citations], which leave the exception out. *)

From stdpp Require Import base option list gmap strings pretty.
From Stdlib Require Import Ascii ZArith Lia.

Local Open Scope nat_scope.

(** ** Characters *)

Abbreviation pystr := (list ascii).

Definition code (c : ascii) : N := N_of_ascii c.

Definition chr (n : N) : ascii := ascii_of_N n.

Definition between (lo hi : N) (c : ascii) : bool :=
  ((lo <=? code c) && (code c <=? hi))%N.

Definition LF : ascii := chr 10.
Definition DQUOTE : ascii := chr 34.
Definition SQUOTE : ascii := chr 39.
Definition BACKSLASH : ascii := chr 92.

(** [str.isspace], which is also [\s] of a [str] pattern. *)
Definition is_space (c : ascii) : bool :=
  between 9 13 c || between 28 32 c || (code c =? 133)%N || (code c =? 160)%N.

(** [\d] of a [str] pattern: the decimal digits. *)
Definition is_digit (c : ascii) : bool := between 48 57 c.

(** [\w] of a [str] pattern: alphanumeric characters and the underscore. *)
Definition is_word (c : ascii) : bool :=
  between 48 57 c || between 65 90 c || (code c =? 95)%N || between 97 122 c
  || (code c =? 170)%N || between 178 179 c || (code c =? 181)%N
  || between 185 186 c || between 188 190 c
  || between 192 214 c || between 216 246 c || between 248 255 c.

(** [str.lower] on one character. *)
Definition lower_char (c : ascii) : ascii :=
  if between 65 90 c || between 192 214 c || between 216 222 c
  then chr (code c + 32) else c.

(** The upper-case partner of a character, where it lies below 256. *)
Definition upper_char (c : ascii) : ascii :=
  if between 97 122 c || between 224 246 c || between 248 254 c
  then chr (code c - 32) else c.

(** ** String operations of [str] *)

Definition str (s : string) : pystr := String.list_ascii_of_string s.

(** [s.lower()] *)
Definition lower (s : pystr) : pystr := lower_char <$> s.

(** [s.startswith(p)] *)
Fixpoint startswith (p s : pystr) : bool :=
  match p, s with
  | [], _ => true
  | _ :: _, [] => false
  | a :: p', b :: s' => bool_decide (a = b) && startswith p' s'
  end.

(** [needle in hay] *)
Fixpoint str_in (needle hay : pystr) : bool :=
  startswith needle hay ||
  match hay with
  | [] => false
  | _ :: hay' => str_in needle hay'
  end.

(** [s.lstrip()] and [s.rstrip()] with a predicate for the stripped set. *)
Fixpoint lstrip (p : ascii → bool) (s : pystr) : pystr :=
  match s with
  | [] => []
  | c :: s' => if p c then lstrip p s' else s
  end.

Fixpoint rstrip (p : ascii → bool) (s : pystr) : pystr :=
  match s with
  | [] => []
  | c :: s' =>
      match rstrip p s' with
      | [] => if p c then [] else [c]
      | t => c :: t
      end
  end.

(** [s.strip()] *)
Definition strip (s : pystr) : pystr := rstrip is_space (lstrip is_space s).

(** Membership of a character in the argument of [rstrip(chars)]. *)
Definition one_of (chars : pystr) (c : ascii) : bool := bool_decide (c ∈ chars).

(** [s.replace(old, new)] for a non-empty [old]: [skip] characters of a
    replaced occurrence are still to be passed over. *)
Fixpoint replace_from (old new : pystr) (skip : nat) (s : pystr) : pystr :=
  match s with
  | [] => []
  | c :: s' =>
      match skip with
      | S k => replace_from old new k s'
      | O =>
          if startswith old s
          then new ++ replace_from old new (length old - 1) s'
          else c :: replace_from old new 0 s'
      end
  end.

Definition replace (old new s : pystr) : pystr := replace_from old new 0 s.

(** [s.split('\n')] *)
Fixpoint split_lines (s : pystr) : list pystr :=
  match s with
  | [] => [[]]
  | c :: s' =>
      if bool_decide (c = LF) then [] :: split_lines s'
      else match split_lines s' with
           | l :: ls => (c :: l) :: ls
           | [] => [[c]]
           end
  end.

(** ['\n'.join(lines)] *)
Fixpoint join_lines (lines : list pystr) : pystr :=
  match lines with
  | [] => []
  | [l] => l
  | l :: ls => l ++ LF :: join_lines ls
  end.

(** The value of a string of decimal digits: what [int(s)] returns when it
    returns ([Extractor.int] has its exception). *)
Definition digit_value (c : ascii) : Z := Z.of_N (code c) - 48.

Definition int_of_digits (s : pystr) : Z :=
  foldl (λ acc c, 10 * acc + digit_value c)%Z 0%Z s.

(** [sep.join(parts)] *)
Fixpoint join (sep : pystr) (parts : list pystr) : pystr :=
  match parts with
  | [] => []
  | [p] => p
  | p :: ps => p ++ sep ++ join sep ps
  end.

(** The values a [to_dict] holds; a dictionary keeps its keys in the order
    of their insertion. *)
#[warnings="-register-all"]
Inductive value :=
| VNone
| VBool (b : bool)
| VInt (n : Z)
| VStr (s : pystr)
| VList (l : list value)
| VDict (d : list (string * value)).

(** [d.get(key)] *)
Fixpoint dict_get (key : string) (d : list (string * value)) : option value :=
  match d with
  | [] => None
  | (k, v) :: d' => if bool_decide (k = key) then Some v else dict_get key d'
  end.

(** ** Regular expressions

    The fragment of Python's [re] syntax that the two modules use, with the
    backtracking semantics of the [re] engine: alternatives are tried left to
    right, a greedy quantifier tries the longest repetition first and a lazy
    one the shortest, and the first way of matching that succeeds is the
    match.  Every quantifier of the source's patterns applies to a single
    character ([\d{4,9}], [\s+], [[^\[\]]+?], [.+?], [s?]), so [Rep] takes
    an [atom]. *)

Module Re.

Inductive item :=
| IChar (c : ascii)          (* a literal character in a class *)
| IRange (lo hi : ascii)     (* [lo-hi] *)
| ISpace                     (* [\s] *)
| IDigit.                    (* [\d] *)

Inductive atom :=
| Lit (c : ascii)                          (* a literal character *)
| Any                                      (* [.] *)
| Class (negated : bool) (items : list item).  (* [[...]] and [[^...]] *)

Inductive regex :=
| Eps
| One (a : atom)
| Rep (a : atom) (lo : nat) (hi : option nat) (greedy : bool)
| Cat (r1 r2 : regex)
| Alt (r1 r2 : regex)
| Group (i : nat) (r : regex)    (* capturing group number [i] *)
| Ahead (r : regex)              (* [(?=r)] *)
| Bol                            (* [^] *)
| Eol                            (* [$] *)
| EndZ                           (* [\Z] *)
| WordB.                         (* [\b] *)

Record flags := Flags { IGNORECASE : bool; MULTILINE : bool; DOTALL : bool }.

Definition no_flags : flags := Flags false false false.

Definition item_has (i : item) (c : ascii) : bool :=
  match i with
  | IChar x => bool_decide (c = x)
  | IRange lo hi => between (code lo) (code hi) c
  | ISpace => is_space c
  | IDigit => is_digit c
  end.

Definition class_has (items : list item) (c : ascii) : bool :=
  existsb (λ i, item_has i c) items.

Definition atom_matches (f : flags) (a : atom) (c : ascii) : bool :=
  match a with
  | Lit x =>
      if IGNORECASE f then bool_decide (lower_char c = lower_char x)
      else bool_decide (c = x)
  | Any => DOTALL f || negb (bool_decide (c = LF))
  | Class negated items =>
      xorb negated
        (class_has items c
         || (IGNORECASE f
             && (class_has items (lower_char c) || class_has items (upper_char c))))
  end.

(** The matcher's position in the subject: the character before it, its
    index, the text from it on, and the groups closed so far. *)
Record cursor := Cursor {
  before : option ascii;
  pos : nat;
  rest : pystr;
  groups : list (nat * (nat * nat))
}.

Definition advance (c : cursor) (x : ascii) (xs : pystr) : cursor :=
  Cursor (Some x) (S (pos c)) xs (groups c).

Definition close_group (i : nat) (start : nat) (c : cursor) : cursor :=
  Cursor (before c) (pos c) (rest c) ((i, (start, pos c)) :: groups c).

Definition word_before (c : cursor) : bool :=
  match before c with Some x => is_word x | None => false end.

Definition word_after (c : cursor) : bool :=
  match rest c with x :: _ => is_word x | [] => false end.

Definition within (hi : option nat) (n : nat) : bool :=
  match hi with Some h => n <? h | None => true end.

(** [a{lo,hi}] and [a{lo,hi}?] after [n] repetitions, at the text [s]. *)
Fixpoint rep (f : flags) (a : atom) (lo : nat) (hi : option nat) (greedy : bool)
    (k : cursor → option cursor) (n : nat) (c : cursor) (s : pystr)
    : option cursor :=
  let here := Cursor (before c) (pos c) s (groups c) in
  let stop := if lo <=? n then k here else None in
  match s with
  | x :: s' =>
      if within hi n && atom_matches f a x then
        let more := rep f a lo hi greedy k (S n) (advance here x s') s' in
        if greedy then
          match more with Some m => Some m | None => stop end
        else
          match stop with Some m => Some m | None => more end
      else stop
  | [] => stop
  end.

(** [run f r c k]: match [r] at [c], then the continuation [k]. *)
Fixpoint run (f : flags) (r : regex) (c : cursor)
    (k : cursor → option cursor) : option cursor :=
  match r with
  | Eps => k c
  | One a =>
      match rest c with
      | x :: xs => if atom_matches f a x then k (advance c x xs) else None
      | [] => None
      end
  | Rep a lo hi greedy => rep f a lo hi greedy k 0 c (rest c)
  | Cat r1 r2 => run f r1 c (λ c', run f r2 c' k)
  | Alt r1 r2 =>
      match run f r1 c k with
      | Some m => Some m
      | None => run f r2 c k
      end
  | Group i r' => run f r' c (λ c', k (close_group i (pos c) c'))
  | Ahead r' =>
      match run f r' c Some with
      | Some _ => k c
      | None => None
      end
  | Bol =>
      match before c with
      | None => k c
      | Some x => if MULTILINE f && bool_decide (x = LF) then k c else None
      end
  | Eol =>
      match rest c with
      | [] => k c
      | [x] => if bool_decide (x = LF) then k c else None
      | x :: _ => if MULTILINE f && bool_decide (x = LF) then k c else None
      end
  | EndZ => match rest c with [] => k c | _ => None end
  | WordB => if xorb (word_before c) (word_after c) then k c else None
  end.

(** A match object: [m.start()], [m.end()] and the spans of its groups. *)
Record match_ := Match {
  m_start : nat;
  m_end : nat;
  m_groups : list (nat * (nat * nat))
}.

(** The match of [r] that begins at the cursor, if there is one. *)
Definition match_here (f : flags) (r : regex) (c : cursor) : option match_ :=
  (λ e, Match (pos c) (pos e) (groups e)) <$> run f r c Some.

(** [text[a:b]] *)
Definition slice (text : pystr) (a b : nat) : pystr := take (b - a) (drop a text).

(** [m.group(0)] *)
Definition group0 (text : pystr) (m : match_) : pystr :=
  slice text (m_start m) (m_end m).

(** [m.group(i)] for a group that took part in the match. *)
Definition group (text : pystr) (m : match_) (i : nat) : pystr :=
  match list_find (λ g, g.1 = i) (m_groups m) with
  | Some (_, (_, (a, b))) => slice text a b
  | None => []
  end.

(** [re.match(r, text, f)]: a match at the beginning of the text. *)
Definition match_start (f : flags) (r : regex) (text : pystr) : option match_ :=
  match_here f r (Cursor None 0 text []).

(** The leftmost match at or after the cursor. *)
Fixpoint search_from (f : flags) (r : regex) (prev : option ascii) (p : nat)
    (s : pystr) : option match_ :=
  match match_here f r (Cursor prev p s []) with
  | Some m => Some m
  | None =>
      match s with
      | [] => None
      | x :: s' => search_from f r (Some x) (S p) s'
      end
  end.

(** [re.search(r, text, f)] *)
Definition search (f : flags) (r : regex) (text : pystr) : option match_ :=
  search_from f r None 0 text.

(** The successive non-overlapping matches, left to right; [skip] counts
    the characters of the last match still to be passed over.  The
    patterns of this program match no empty string, so the engine's rule
    for resuming after an empty match is never exercised. *)
Fixpoint finditer_from (f : flags) (r : regex) (prev : option ascii) (p : nat)
    (skip : nat) (s : pystr) : list match_ :=
  match skip with
  | S k =>
      match s with
      | [] => []
      | x :: s' => finditer_from f r (Some x) (S p) k s'
      end
  | O =>
      match match_here f r (Cursor prev p s []) with
      | Some m =>
          m :: match s with
               | [] => []
               | x :: s' => finditer_from f r (Some x) (S p) (m_end m - p - 1) s'
               end
      | None =>
          match s with
          | [] => []
          | x :: s' => finditer_from f r (Some x) (S p) 0 s'
          end
      end
  end.

(** [list(re.finditer(r, text, f))] *)
Definition finditer (f : flags) (r : regex) (text : pystr) : list match_ :=
  finditer_from f r None 0 0 text.

(** [re.findall(r, text)] for a pattern without groups. *)
Definition findall (f : flags) (r : regex) (text : pystr) : list pystr :=
  group0 text <$> finditer f r text.

(** [re.sub(r, '', text)] *)
Fixpoint delete_from (f : flags) (r : regex) (prev : option ascii) (p : nat)
    (skip : nat) (s : pystr) : pystr :=
  match s with
  | [] => []
  | x :: s' =>
      match skip with
      | S k => delete_from f r (Some x) (S p) k s'
      | O =>
          match match_here f r (Cursor prev p s []) with
          | Some m =>
              if m_end m =? p then x :: delete_from f r (Some x) (S p) 0 s'
              else delete_from f r (Some x) (S p) (m_end m - p - 1) s'
          | None => x :: delete_from f r (Some x) (S p) 0 s'
          end
      end
  end.

Definition sub_empty (f : flags) (r : regex) (text : pystr) : pystr :=
  delete_from f r None 0 0 text.

(** Pattern syntax. *)
Definition lit (s : string) : regex :=
  foldr (λ c r, Cat (One (Lit c)) r) Eps (str s).

Definition seq (rs : list regex) : regex := foldr Cat Eps rs.

Definition alt (rs : list regex) : regex :=
  match rs with
  | [] => Eps
  | r :: rs' => foldl Alt r rs'
  end.

Definition digit : atom := Class false [IDigit].
Definition space : atom := Class false [ISpace].
Definition plus (a : atom) : regex := Rep a 1 None true.
Definition star (a : atom) : regex := Rep a 0 None true.
Definition opt (a : atom) : regex := Rep a 0 (Some 1) true.
Definition plus_lazy (a : atom) : regex := Rep a 1 None false.

End Re.

(** ** Binary64 arithmetic of [int(len(lines) * 0.6)]

    [0.6] denotes the double [5404319552844595 * 2^-53].  The product of an
    integer [n < 2^53] with it is the real product rounded to 53 significant
    bits, ties to even; [int()] truncates the result. *)

Module Float.

Definition mantissa_0_6 : Z := 5404319552844595.

(** The integer nearest to [p / 2^e], ties to even, for [0 < e]. *)
Definition round_shift (p e : Z) : Z :=
  let q := (p / 2 ^ e)%Z in
  let r := (p mod 2 ^ e)%Z in
  let half := (2 ^ (e - 1))%Z in
  if (r <? half)%Z then q
  else if (half <? r)%Z then (q + 1)%Z
  else if Z.even q then q else (q + 1)%Z.

(** [int(n * 0.6)] *)
Definition int_mul_0_6 (n : Z) : Z :=
  let p := (n * mantissa_0_6)%Z in          (* the exact product, times 2^53 *)
  let e := (Z.log2 p - 52)%Z in             (* bits beyond the 53 kept *)
  if (e <=? 0)%Z then (p / 2 ^ 53)%Z
  else (round_shift p e * 2 ^ e / 2 ^ 53)%Z.

End Float.

(** ** [src/extractor.py] *)

Module Extractor.
Import Re.

Definition ch (s : string) : ascii :=
  match s with String c _ => c | EmptyString => zero end.

(** [DOI_PATTERN], compiled with [re.IGNORECASE] *)
Definition DOI_FLAGS : flags := Flags true false false.

Definition DOI_PATTERN : regex :=
  seq [lit "10."; Rep digit 4 (Some 9) true; lit "/";
       plus (Class true [ISpace; IChar (ch "["); IChar (ch "]"); IChar (ch "<");
                         IChar (ch ">"); IChar DQUOTE; IChar SQUOTE;
                         IChar (ch "{"); IChar (ch "}"); IChar (ch "|");
                         IChar BACKSLASH; IChar (ch "^"); IChar (ch "`")])].

Definition REFERENCE_HEADERS : list regex :=
  [ seq [WordB; lit "References"; WordB];
    seq [WordB; lit "Bibliography"; WordB];
    seq [WordB; lit "Works"; plus space; lit "Cited"; WordB];
    seq [WordB; lit "Literature"; plus space; lit "Cited"; WordB];
    seq [WordB; lit "Cited"; plus space; lit "Works"; WordB];
    seq [WordB; lit "REFERENCES"; WordB];
    seq [WordB; lit "BIBLIOGRAPHY"; WordB] ].

Definition HEADER_FLAGS : flags := Flags true false false.

Record ExtractedCitation := {
  number : Z;
  text : pystr;
  doi : option pystr;
  raw_match : option pystr
}.

Record ExtractionResult := {
  success : bool;
  filename : pystr;
  total_pages : nat;
  citations : list ExtractedCitation;
  dois_found : list pystr;
  error : option pystr
}.

(** What [extract_text_from_pdf] hands back: the text and the page count,
    or one of the exceptions it raises. *)
Inductive pdf_outcome :=
| Extracted (full_text : pystr) (page_count : nat)
| RaisedFileNotFound (message : pystr)
| RaisedException (message : pystr).

Definition end_patterns : list regex :=
  [ seq [One (Lit LF); star space;
         alt [lit "Appendix"; lit "Appendices"; lit "Supplementary";
              Cat (lit "Acknowledgment") (opt (Lit (ch "s")))];
         star space; One (Lit LF)] ].

(** The inner loop of [find_references_section]: cut at the first end
    pattern that is found. *)
Fixpoint trim_at_end (pats : list regex) (references_text : pystr) : pystr :=
  match pats with
  | [] => references_text
  | end_pattern :: pats' =>
      match search HEADER_FLAGS end_pattern references_text with
      | Some end_match => take (m_start end_match) references_text
      | None => trim_at_end pats' references_text
      end
  end.

(** The header loop of [find_references_section]. *)
Fixpoint header_loop (patterns : list regex) (text : pystr) : option pystr :=
  match patterns with
  | [] => None
  | pattern :: patterns' =>
      match search HEADER_FLAGS pattern text with
      | Some match_ =>
          let start := m_start match_ in
          let references_text := drop start text in
          Some (trim_at_end end_patterns references_text)
      | None => header_loop patterns' text
      end
  end.

Definition last_portion (text : pystr) : pystr :=
  let lines := split_lines text in
  join_lines (drop (Z.to_nat (Float.int_mul_0_6 (Z.of_nat (length lines)))) lines).

Definition find_references_section (text : pystr) : option pystr :=
  match header_loop REFERENCE_HEADERS text with
  | Some references_text => Some references_text
  | None =>
      let lines := split_lines text in
      if 50 <? length lines then
        if search DOI_FLAGS DOI_PATTERN (last_portion text) is Some _
        then Some (last_portion text)
        else None
      else None
  end.

Definition TRAILING : pystr := str ".,;:)]}'" ++ [DQUOTE].

Definition ENTITY : regex :=
  seq [lit "&"; plus (Class false [IRange (ch "a") (ch "z")]); lit ";"].

Definition clean_doi (doi : pystr) : pystr :=
  let doi := rstrip (one_of TRAILING) doi in
  let doi := sub_empty no_flags ENTITY doi in
  doi.

(** The body of the loop of [extract_dois], on the pair [(cleaned, seen)]. *)
Definition dedup_step (st : list pystr * gset pystr) (doi : pystr)
    : list pystr * gset pystr :=
  let '(cleaned, seen) := st in
  let doi := clean_doi doi in
  let doi_lower := lower doi in
  if bool_decide (doi_lower ∉ seen) && (10 <? length doi)
  then (cleaned ++ [doi], {[doi_lower]} ∪ seen)
  else (cleaned, seen).

Definition extract_dois (text : pystr) : list pystr :=
  let matches := findall DOI_FLAGS DOI_PATTERN text in
  (foldl dedup_step ([], ∅) matches).1.

Definition CITATION_FLAGS : flags := Flags false true true.

Definition bracketed : regex :=
  seq [lit "["; Group 1 (plus digit); lit "]"; star space;
       Group 2 (plus_lazy (Class true [IChar (ch "["); IChar (ch "]")]));
       Ahead (Alt (seq [lit "["; plus digit; lit "]"]) EndZ)].

Definition dotted : regex :=
  seq [Bol; Group 1 (plus digit); lit "."; star space;
       Group 2 (Cat (One (Class true [IRange (ch "0") (ch "9")])) (plus_lazy Any));
       Ahead (Alt (seq [Bol; plus digit; lit "."]) EndZ)].

Definition parenthesized : regex :=
  seq [lit "("; Group 1 (plus digit); lit ")"; star space;
       Group 2 (plus_lazy (Class true [IChar (ch "("); IChar (ch ")")]));
       Ahead (Alt (seq [lit "("; plus digit; lit ")"]) EndZ)].

Definition patterns : list regex := [bracketed; dotted; parenthesized].

(** The inner loop of [parse_numbered_citations] over the matches. *)
Definition collect (text : pystr) (citations : list (Z * pystr)) (m : match_)
    : list (Z * pystr) :=
  let num := int_of_digits (group text m 1) in
  let text_content := strip (group text m 2) in
  if 20 <? length text_content
  then citations ++ [(num, text_content)]
  else citations.

(** The outer loop: the first pattern with more than three matches is
    used, and the loop is left. *)
Fixpoint pattern_loop (pats : list regex) (text : pystr)
    (citations : list (Z * pystr)) : list (Z * pystr) :=
  match pats with
  | [] => citations
  | pattern :: pats' =>
      let matches := finditer CITATION_FLAGS pattern text in
      if negb (bool_decide (matches = [])) && (3 <? length matches)
      then foldl (collect text) citations matches
      else pattern_loop pats' text citations
  end.

Definition parse_numbered_citations (text : pystr) : list (Z * pystr) :=
  pattern_loop patterns text [].

(** The DOI loop of [extract_citations] for one parsed citation. *)
Fixpoint doi_loop (all_dois : list pystr) (text : pystr) : option pystr :=
  match all_dois with
  | [] => None
  | d :: all_dois' =>
      if str_in (lower d) (lower text) then Some d else doi_loop all_dois' text
  end.

Definition from_parsed (all_dois : list pystr) (c : Z * pystr) : ExtractedCitation :=
  let '(num, text) := c in
  {| number := num; text := take 500 text; doi := doi_loop all_dois text;
     raw_match := None |}.

Definition from_doi (i : nat) (doi : pystr) : ExtractedCitation :=
  {| number := Z.of_nat (i + 1); text := str "DOI: " ++ doi; doi := Some doi;
     raw_match := None |}.

(** [ref_text] after the fall-back to the whole document. *)
Definition reference_text (full_text : pystr) : pystr :=
  match find_references_section full_text with
  | Some (c :: s) => c :: s
  | _ => full_text
  end.

Definition NO_TEXT : pystr :=
  str "No text could be extracted from PDF (may be scanned/image-based)".

Definition extract_citations (name : pystr) (pdf : pdf_outcome) : ExtractionResult :=
  match pdf with
  | Extracted full_text page_count =>
      match full_text with
      | [] =>
          {| success := false; filename := name; total_pages := page_count;
             citations := []; dois_found := []; error := Some NO_TEXT |}
      | _ =>
          let ref_text := reference_text full_text in
          let all_dois := extract_dois ref_text in
          let parsed_citations := parse_numbered_citations ref_text in
          let citations :=
            match parsed_citations with
            | _ :: _ => from_parsed all_dois <$> parsed_citations
            | [] => imap from_doi all_dois
            end in
          {| success := true; filename := name; total_pages := page_count;
             citations := citations; dois_found := all_dois; error := None |}
      end
  | RaisedFileNotFound message =>
      {| success := false; filename := name; total_pages := 0;
         citations := []; dois_found := []; error := Some message |}
  | RaisedException message =>
      {| success := false; filename := name; total_pages := 0;
         citations := []; dois_found := [];
         error := Some (str "PDF extraction failed: " ++ message) |}
  end.

(** [int(s)] for a string of digits, with the interpreter's default limit:
    more than 4300 digits raise [ValueError]; [inl] holds the message of
    the exception. *)
Definition MAX_STR_DIGITS : nat := 4300.

Definition int (s : pystr) : pystr + Z :=
  if MAX_STR_DIGITS <? length s then
    inl (str "Exceeds the limit (4300 digits) for integer string conversion: value has "
         ++ str (pretty (length s))
         ++ str " digits; use sys.set_int_max_str_digits() to increase the limit")
  else inr (int_of_digits s).

(** The inner loop of [parse_numbered_citations] with the exception of
    [int]: once raised, it leaves the loop. *)
Definition collect_raising (text : pystr) (st : pystr + list (Z * pystr))
    (m : match_) : pystr + list (Z * pystr) :=
  match st with
  | inl e => inl e
  | inr citations =>
      match int (group text m 1) with
      | inl e => inl e
      | inr num =>
          let text_content := strip (group text m 2) in
          if 20 <? length text_content
          then inr (citations ++ [(num, text_content)])
          else inr citations
      end
  end.

Fixpoint pattern_loop_raising (pats : list regex) (text : pystr)
    (citations : list (Z * pystr)) : pystr + list (Z * pystr) :=
  match pats with
  | [] => inr citations
  | pattern :: pats' =>
      let matches := finditer CITATION_FLAGS pattern text in
      if negb (bool_decide (matches = [])) && (3 <? length matches)
      then foldl (collect_raising text) (inr citations) matches
      else pattern_loop_raising pats' text citations
  end.

(** [parse_numbered_citations]: the citations, or the exception raised. *)
Definition parse_numbered_citations_raising (text : pystr)
    : pystr + list (Z * pystr) :=
  pattern_loop_raising patterns text [].

(** [extract_citations] with the exception of the segmenter, which its
    [except Exception] turns into a failed result. *)
Definition extract_citations_raising (name : pystr) (pdf : pdf_outcome)
    : ExtractionResult :=
  match pdf with
  | Extracted full_text page_count =>
      match full_text with
      | [] =>
          {| success := false; filename := name; total_pages := page_count;
             citations := []; dois_found := []; error := Some NO_TEXT |}
      | _ =>
          let ref_text := reference_text full_text in
          let all_dois := extract_dois ref_text in
          match parse_numbered_citations_raising ref_text with
          | inl e =>
              {| success := false; filename := name; total_pages := 0;
                 citations := []; dois_found := [];
                 error := Some (str "PDF extraction failed: " ++ e) |}
          | inr parsed_citations =>
              let citations :=
                match parsed_citations with
                | _ :: _ => from_parsed all_dois <$> parsed_citations
                | [] => imap from_doi all_dois
                end in
              {| success := true; filename := name; total_pages := page_count;
                 citations := citations; dois_found := all_dois; error := None |}
          end
      end
  | RaisedFileNotFound message =>
      {| success := false; filename := name; total_pages := 0;
         citations := []; dois_found := []; error := Some message |}
  | RaisedException message =>
      {| success := false; filename := name; total_pages := 0;
         citations := []; dois_found := [];
         error := Some (str "PDF extraction failed: " ++ message) |}
  end.

(** What is at the path of the document: nothing, something that makes
    [pdfplumber] raise (a [FileNotFoundError] or another exception), or a
    document whose pages give their text, [None] for a page without any. *)
Inductive pdf_source :=
| NoSuchFile
| Raises (file_not_found : bool) (message : pystr)
| Document (pages : list (option pystr)).

(** The page loop of [extract_text_from_pdf]. *)
Definition add_page (full_text : list pystr) (page : option pystr) : list pystr :=
  match page with
  | Some (c :: s) => full_text ++ [c :: s]
  | _ => full_text
  end.

Definition PARAGRAPH : pystr := [LF; LF].

(** [extract_text_from_pdf], [shown] being [str(pdf_path)] *)
Definition extract_text_from_pdf (shown : pystr) (src : pdf_source) : pdf_outcome :=
  match src with
  | NoSuchFile => RaisedFileNotFound (str "PDF not found: " ++ shown)
  | Raises true message => RaisedFileNotFound message
  | Raises false message => RaisedException message
  | Document pages =>
      let page_count := length pages in
      let full_text := foldl add_page [] pages in
      Extracted (join PARAGRAPH full_text) page_count
  end.

(** [extract_citations(pdf_path)] from the path on: [name] is
    [pdf_path.name]. *)
Definition extract_citations_at (shown name : pystr) (src : pdf_source)
    : ExtractionResult :=
  extract_citations_raising name (extract_text_from_pdf shown src).

(** [ExtractedCitation.to_dict], which is [asdict] *)
Definition citation_to_dict (c : ExtractedCitation) : list (string * value) :=
  [ ("number"%string, VInt (number c));
    ("text"%string, VStr (text c));
    ("doi"%string, from_option VStr VNone (doi c));
    ("raw_match"%string, from_option VStr VNone (raw_match c)) ].

(** [ExtractionResult.to_dict] *)
Definition to_dict (r : ExtractionResult) : list (string * value) :=
  let result :=
    [ ("success"%string, VBool (success r));
      ("filename"%string, VStr (filename r));
      ("total_pages"%string, VInt (Z.of_nat (total_pages r)));
      ("total_citations"%string, VInt (Z.of_nat (length (citations r))));
      ("dois_found"%string, VInt (Z.of_nat (length (dois_found r))));
      ("citations"%string, VList ((λ c, VDict (citation_to_dict c)) <$> citations r));
      ("all_dois"%string, VList (VStr <$> dois_found r)) ] in
  match error r with
  | Some (c :: s) => result ++ [("error"%string, VStr (c :: s))]
  | _ => result
  end.

End Extractor.

(** ** [src/verifier.py] *)

Module Verifier.
Import Re.

Definition CROSSREF_API_BASE : pystr := str "https://api.crossref.org/works/".

Record VerificationResult := {
  doi : pystr;
  valid : bool;
  title : option pystr;
  authors : option (list pystr);
  year : option Z;
  journal : option pystr;
  error : option pystr
}.

Definition invalid (d : pystr) (e : pystr) : VerificationResult :=
  {| doi := d; valid := false; title := None; authors := None; year := None;
     journal := None; error := Some e |}.

Definition prefixes : list pystr :=
  [ str "https://doi.org/"; str "http://doi.org/"; str "https://dx.doi.org/";
    str "http://dx.doi.org/"; str "doi:"; str "DOI:" ].

(** The prefix loop of [clean_doi]: the first prefix the string starts
    with is cut off, and the loop is left. *)
Fixpoint prefix_loop (ps : list pystr) (doi : pystr) : pystr :=
  match ps with
  | [] => doi
  | prefix :: ps' =>
      if startswith prefix doi then drop (length prefix) doi
      else prefix_loop ps' doi
  end.

Definition TRAILING : pystr := str ".,;:)]}".

Definition clean_doi (doi : pystr) : pystr :=
  let doi := strip doi in
  let doi := prefix_loop prefixes doi in
  let doi := rstrip (one_of TRAILING) doi in
  let doi := replace (str "%2F") (str "/") doi in
  doi.

(** [^10\.\d{4,}/.+$], used with [re.match] and no flags *)
Definition SHAPE : regex :=
  seq [Bol; lit "10."; Rep digit 4 None true; lit "/"; plus Any; Eol].

Definition shape_ok (cleaned_doi : pystr) : bool :=
  bool_decide (is_Some (match_start no_flags SHAPE cleaned_doi)).

(** One entry of CrossRef's [author] array, as far as [extract_authors]
    reads it. *)
Record author := { family : option pystr; given : option pystr; name : option pystr }.

(** The loop of [extract_authors] over [author_list[:10]]. *)
Definition add_author (acc : list pystr) (a : author) : list pystr :=
  match family a with
  | Some fam =>
      match given a with
      | Some g => acc ++ [g ++ str " " ++ fam]
      | None => acc ++ [fam]
      end
  | None =>
      match name a with
      | Some n => acc ++ [n]
      | None => acc
      end
  end.

Definition extract_authors (author_list : list author) : list pystr :=
  foldl add_author [] (take 10 author_list).

(** The [message] object of a CrossRef reply, as far as [verify_doi] reads
    it.  A date field that is present holds its [date-parts] array when it
    has one. *)
Record message := {
  msg_title : option (list pystr);
  msg_author : list author;
  msg_dates : list (option (option (list (list (option Z)))));
  msg_container : list pystr
}.

(** What [response.json()] gives: the decoded [message], or the text of the
    exception that the decoding raises. *)
Inductive body :=
| Json (m : message)
| Undecodable (text : pystr).

(** What [requests.get] and the decoding of the reply produce. *)
Inductive reply :=
| Response (status_code : Z) (b : body)
| RaisedTimeout
| RaisedRequestException (text : pystr)
| RaisedOther (text : pystr).

(** A computation that may issue one HTTP GET. *)
Inductive io (A : Type) :=
| Return (a : A)
| Get (url : pystr) (k : reply → A).
Arguments Return {A} a.
Arguments Get {A} url k.

(** The year loop over [published-print], [published-online], [created]. *)
Fixpoint year_loop (fields : list (option (option (list (list (option Z))))))
    : option Z :=
  match fields with
  | [] => None
  | None :: fields' => year_loop fields'
  | Some date_parts :: fields' =>
      match default [[None : option Z]] date_parts with
      | (y :: _) :: _ => y
      | _ => year_loop fields'
      end
  end.

Definition on_message (cleaned_doi : pystr) (m : message) : VerificationResult :=
  match default [None] ((λ l : list pystr, Some <$> l) <$> msg_title m) with
  | [] => invalid cleaned_doi (str "Unexpected error: list index out of range")
  | t :: _ =>
      let authors := extract_authors (msg_author m) in
      {| doi := cleaned_doi; valid := true; title := t;
         authors := match authors with [] => None | _ => Some authors end;
         year := year_loop (msg_dates m);
         journal := head (msg_container m);
         error := None |}
  end.

Definition on_reply (cleaned_doi : pystr) (r : reply) : VerificationResult :=
  match r with
  | Response status_code b =>
      if (status_code =? 200)%Z then
        match b with
        | Json m => on_message cleaned_doi m
        | Undecodable text => invalid cleaned_doi (str "Unexpected error: " ++ text)
        end
      else if (status_code =? 404)%Z then
        invalid cleaned_doi (str "DOI not found in CrossRef")
      else
        invalid cleaned_doi
          (str "CrossRef API error: HTTP " ++ str (pretty status_code))
  | RaisedTimeout => invalid cleaned_doi (str "CrossRef API timeout")
  | RaisedRequestException text => invalid cleaned_doi (str "Request failed: " ++ text)
  | RaisedOther text => invalid cleaned_doi (str "Unexpected error: " ++ text)
  end.

Definition verify_doi (doi : pystr) : io VerificationResult :=
  let cleaned_doi := clean_doi doi in
  match cleaned_doi with
  | [] => Return (invalid doi (str "Empty or invalid DOI format"))
  | _ =>
      if negb (shape_ok cleaned_doi)
      then Return (invalid doi (str "Invalid DOI format: " ++ cleaned_doi))
      else Get (CROSSREF_API_BASE ++ cleaned_doi) (on_reply cleaned_doi)
  end.

(** The requests a computation sends. *)
Definition requests {A} (c : io A) : list pystr :=
  match c with
  | Return _ => []
  | Get url _ => [url]
  end.

(** The result, given the registry's behaviour. *)
Definition result {A} (net : pystr → reply) (c : io A) : A :=
  match c with
  | Return a => a
  | Get url k => k (net url)
  end.

(** What a batch does besides computing: it sleeps and it sends requests. *)
Inductive event (D : Type) :=
| Slept (delay : D)
| Requested (url : pystr).
Arguments Slept {D} delay.
Arguments Requested {D} url.

(** A computation run against a registry whose reply may depend on all that
    happened before. *)
Definition perform {A D} (net : list (event D) → pystr → reply)
    (trace : list (event D)) (c : io A) : A * list (event D) :=
  match c with
  | Return a => (a, trace)
  | Get url k => (k (net trace url), trace ++ [Requested url])
  end.

(** The loop of [verify_dois_batch], from the index [i] on. *)
Fixpoint batch_loop {D} (net : list (event D) → pystr → reply) (delay : D)
    (i : nat) (dois : list pystr)
    (st : list VerificationResult * list (event D))
    : list VerificationResult * list (event D) :=
  match dois with
  | [] => st
  | doi :: dois' =>
      let '(results, trace) := st in
      let trace := if 0 <? i then trace ++ [Slept delay] else trace in
      let '(r, trace) := perform net trace (verify_doi doi) in
      batch_loop net delay (S i) dois' (results ++ [r], trace)
  end.

(** [verify_dois_batch(dois, delay)]: the results, and what happened. *)
Definition verify_dois_batch {D} (net : list (event D) → pystr → reply)
    (dois : list pystr) (delay : D)
    : list VerificationResult * list (event D) :=
  batch_loop net delay 0 dois ([], []).

End Verifier.

(** ** Notions the statements use *)

Module Spec.
Import Re.

(** A list without its case-insensitive repetitions: of the elements that
    agree up to case, the first stays, at its place. *)
Fixpoint dedup_ci (l : list pystr) : list pystr :=
  match l with
  | [] => []
  | x :: l' => x :: filter (λ y, lower y ≠ lower x) (dedup_ci l')
  end.

(** The cleaned matches that are long enough to be kept. *)
Definition kept (cleaned : list pystr) : list pystr :=
  filter (λ d, 10 < length d) cleaned.

(** [d] occurs in [body], whatever the case of the letters. *)
Definition contains_ci (d body : pystr) : Prop :=
  ∃ a b, lower body = a ++ lower d ++ b.

(** The document could not be obtained: the source is missing, its content
    unreadable, or no text came out of it. *)
Definition acquisition_failed (pdf : Extractor.pdf_outcome) : Prop :=
  match pdf with
  | Extractor.Extracted full_text _ => full_text = []
  | Extractor.RaisedFileNotFound _ => True
  | Extractor.RaisedException _ => True
  end.

(** The text was obtained, and a conversion of an entry number raises. *)
Definition conversion_raises (pdf : Extractor.pdf_outcome) : Prop :=
  ∃ full_text page_count e,
    pdf = Extractor.Extracted full_text page_count ∧ full_text ≠ []
    ∧ Extractor.parse_numbered_citations_raising
        (Extractor.reference_text full_text) = inl e.

(** The cursor after the characters [taken]. *)
Fixpoint consume (c : cursor) (taken : pystr) : cursor :=
  match taken with
  | [] => c
  | x :: t => consume (advance c x (tail (rest c))) t
  end.

(** What it means for a pattern to match between two cursors, whatever the
    order in which the engine tries the alternatives. *)
Inductive Matches (f : flags) : regex → cursor → cursor → Prop :=
| M_Eps c : Matches f Eps c c
| M_One a c x xs :
    rest c = x :: xs → atom_matches f a x = true →
    Matches f (One a) c (advance c x xs)
| M_Rep a lo hi greedy c taken s :
    rest c = taken ++ s →
    Forall (λ x, atom_matches f a x = true) taken →
    lo ≤ length taken →
    (∀ h, hi = Some h → length taken ≤ h) →
    Matches f (Rep a lo hi greedy) c (consume c taken)
| M_Cat r1 r2 c c1 c2 :
    Matches f r1 c c1 → Matches f r2 c1 c2 → Matches f (Cat r1 r2) c c2
| M_Alt_l r1 r2 c c' : Matches f r1 c c' → Matches f (Alt r1 r2) c c'
| M_Alt_r r1 r2 c c' : Matches f r2 c c' → Matches f (Alt r1 r2) c c'
| M_Group i r c c' :
    Matches f r c c' → Matches f (Group i r) c (close_group i (pos c) c')
| M_Ahead r c c' : Matches f r c c' → Matches f (Ahead r) c c
| M_Bol c :
    before c = None ∨ (MULTILINE f = true ∧ before c = Some LF) →
    Matches f Bol c c
| M_Eol c :
    rest c = [] ∨ rest c = [LF] ∨ (MULTILINE f = true ∧ head (rest c) = Some LF) →
    Matches f Eol c c
| M_EndZ c : rest c = [] → Matches f EndZ c c
| M_WordB c : word_before c ≠ word_after c → Matches f WordB c c.


(** The shape [^10\.\d{4,}/.+$] in words: ["10."], four digits or more, a
    slash, and a non-empty rest on the same line, up to a final newline. *)
Definition doi_shaped (s : pystr) : Prop :=
  ∃ digits suffix nl,
    s = str "10." ++ digits ++ str "/" ++ suffix ++ nl
    ∧ 4 ≤ length digits ∧ Forall (λ c, is_digit c = true) digits
    ∧ suffix ≠ [] ∧ Forall (λ c, c ≠ LF) suffix
    ∧ (nl = [] ∨ nl = [LF]).

(** The cursor of the matcher at index [q] of a text. *)
Definition cursor_at (text : pystr) (q : nat) : cursor :=
  Cursor (last (take q text)) q (drop q text) [].

(** [r] has a match that begins at index [q] of the text. *)
Definition matches_at (f : flags) (r : regex) (text : pystr) (q : nat) : Prop :=
  q ≤ length text ∧ is_Some (match_here f r (cursor_at text q)).

(** Where the reference headers are first found in a text, header by header,
    and the earliest of these places. *)
Definition header_starts (text : pystr) : list nat :=
  omap (λ h, m_start <$> search Extractor.HEADER_FLAGS h text)
    Extractor.REFERENCE_HEADERS.

Definition earliest_header_start (text : pystr) : option nat :=
  match header_starts text with
  | [] => None
  | p :: ps => Some (foldr Nat.min p ps)
  end.

(** The last 40% of the lines, the count rounded down. *)
Definition last_two_fifths (lines : list pystr) : list pystr :=
  drop (length lines - 2 * length lines / 5) lines.

(** The encoded and the decoded slash of [doi.replace("%2F", "/")]. *)
Definition PERCENT_2F : pystr := str "%2F".
Definition SLASH : pystr := str "/".

(** The entries of a list of raw matches: number and trimmed body of those
    whose trimmed body is longer than 20 characters. *)
Definition entry (text : pystr) (m : match_) : Z * pystr :=
  (int_of_digits (group text m 1), strip (group text m 2)).

Definition entries (text : pystr) (ms : list match_) : list (Z * pystr) :=
  filter (λ e, 20 < length e.2) (entry text <$> ms).

(** The characters a DOI goes on with after its slash. *)
Definition doi_char (c : ascii) : bool :=
  negb (is_space c || one_of (str "[]<>'{}|^`" ++ [DQUOTE; BACKSLASH]) c).

(** A DOI-shaped token begins at index [q]. *)
Definition doi_token_at (text : pystr) (q : nat) : Prop :=
  ∃ pre digits c post,
    text = pre ++ str "10." ++ digits ++ str "/" ++ c :: post
    ∧ length pre = q
    ∧ 4 ≤ length digits ≤ 9 ∧ Forall (λ d, is_digit d = true) digits
    ∧ doi_char c = true.

(** A word boundary lies between [l] and [r]: exactly one of the two
    characters that meet there is a word character. *)
Definition boundary (l r : pystr) : Prop :=
  from_option is_word false (last l) ≠ from_option is_word false (head r).

(** The words of the reference headers, in the order of [REFERENCE_HEADERS]. *)
Definition HEADER_WORDS : list (list string) :=
  [ ["References"]; ["Bibliography"]; ["Works"; "Cited"]; ["Literature"; "Cited"];
    ["Cited"; "Works"]; ["REFERENCES"]; ["BIBLIOGRAPHY"] ].

Definition header_pattern (words : list string) : regex :=
  match words with
  | [w] => seq [WordB; lit w; WordB]
  | [w1; w2] => seq [WordB; lit w1; plus space; lit w2; WordB]
  | _ => Eps
  end.

(** [w] is the header [words] up to case, its words separated by white
    space. *)
Definition header_text (words : list string) (w : pystr) : Prop :=
  match words with
  | [w1] => lower w = lower (str w1)
  | [w1; w2] =>
      ∃ a sp b, w = a ++ sp ++ b ∧ lower a = lower (str w1)
                ∧ sp ≠ [] ∧ Forall (λ c, is_space c = true) sp
                ∧ lower b = lower (str w2)
  | _ => False
  end.

(** The header [words] stands at index [q], between two word boundaries. *)
Definition header_at (words : list string) (text : pystr) (q : nat) : Prop :=
  ∃ pre w post,
    text = pre ++ w ++ post ∧ length pre = q ∧ header_text words w
    ∧ boundary pre (w ++ post) ∧ boundary (pre ++ w) post.

(** The name [extract_authors] gives an author, if it gives one. *)
Definition display_name (a : Verifier.author) : option pystr :=
  match Verifier.family a with
  | Some fam =>
      Some (match Verifier.given a with
            | Some g => g ++ str " " ++ fam
            | None => fam
            end)
  | None => Verifier.name a
  end.

(** The URL [verify_doi] requests for a DOI, if it requests one. *)
Definition lookup_url (doi : pystr) : option pystr :=
  let cleaned := Verifier.clean_doi doi in
  if bool_decide (cleaned ≠ []) && Verifier.shape_ok cleaned
  then Some (Verifier.CROSSREF_API_BASE ++ cleaned)
  else None.

(** The requests and the sleeps of a trace. *)
Definition requested {D} (trace : list (Verifier.event D)) : list pystr :=
  omap (λ e, match e with Verifier.Requested url => Some url | _ => None end) trace.

Definition slept {D} (trace : list (Verifier.event D)) : list D :=
  omap (λ e, match e with Verifier.Slept d => Some d | _ => None end) trace.

End Spec.

(** ** Sample documents *)

Module Sample.

Definition lines (ls : list string) : pystr := join_lines (str <$> ls).

(** A reference list of four bracketed entries, the first citing a DOI. *)
Definition entry_1 : pystr :=
  str "Smith, J. (2020). Title, see 10.1000/xyz123 for details".

Definition document : pystr :=
  lines [ "Some introduction.";
          "References";
          "[1] Smith, J. (2020). Title, see 10.1000/xyz123 for details";
          "[2] Doe, A. (2019). Another title of another work.";
          "[3] Roe, B. (2018). A third title of a third work.";
          "[4] Poe, C. (2017). A fourth title, the last one." ].

(** One DOI and no numbered entry: the DOI has 508 characters. *)
Definition long_doi : pystr := str "10.1234/" ++ replicate 500 (Extractor.ch "a").

Definition long_doi_document : pystr := str "See " ++ long_doi.

(** Four bracketed entries; the first cites its DOI after 500 characters
    of text. *)
Definition late_doi_document : pystr :=
  str "References" ++ [LF] ++
  str "[1] " ++ replicate 500 (Extractor.ch "a") ++ str " 10.1000/xyz123" ++ [LF] ++
  lines [ "[2] Doe, A. (2019). Another title of another work.";
          "[3] Roe, B. (2018). A third title of a third work.";
          "[4] Poe, C. (2017). A fourth title, the last one." ].

(** Reference lists of three and of four bracketed entries, and one of
    four whose third entry has a short body. *)
Definition three_bracketed : pystr :=
  lines [ "[1] Smith, J. (2020). The title of the first work.";
          "[2] Doe, A. (2019). Another title of another work.";
          "[3] Roe, B. (2018). A third title of a third work." ].

Definition four_bracketed : pystr :=
  lines [ "[1] Smith, J. (2020). The title of the first work.";
          "[2] Doe, A. (2019). Another title of another work.";
          "[3] Roe, B. (2018). A third title of a third work.";
          "[4] Poe, C. (2017). A fourth title, the last one." ].

Definition four_one_short : pystr :=
  lines [ "[1] Smith, J. (2020). The title of the first work.";
          "[2] Doe, A. (2019). Another title of another work.";
          "[3] exactly 20 chars....";
          "[4] Poe, C. (2017). A fourth title, the last one." ].

(** A heading "Bibliography", and the word "references" further down. *)
Definition bibliography_first : pystr :=
  lines [ "Bibliography";
          "[1] Smith, J. (2020). The title of the first work.";
          "Further references are available on request." ].

(** Fifty-one lines without a header; the only DOI is on the line of
    index 30, the twenty-first line from the end. *)
Definition fifty_one_lines : pystr :=
  join_lines (replicate 30 (str "text") ++ [str "see 10.1234/abcdef"]
              ++ replicate 20 (str "text")).

(** Running text with four parenthesized asides: no header, no DOI. *)
Definition parenthesized_asides : pystr :=
  str "Intro (1) first aside of the running text (2) second aside of the running text (3) third aside of the running text (4) fourth aside of the running text".

(** Four bracketed entries, the first of them numbered with 4301 digits. *)
Definition long_number_document : pystr :=
  str "[" ++ replicate 4301 (Extractor.ch "7") ++ str "] " ++
  lines [ "Smith, J. (2020). The title of the first work.";
          "[2] Doe, A. (2019). Another title of another work.";
          "[3] Roe, B. (2018). A third title of a third work.";
          "[4] Poe, C. (2017). A fourth title, the last one." ].

(** A document without headers, numbered entries or DOIs. *)
Definition plain_document : pystr := str "Nothing is cited here.".

End Sample.

(** * Properties *)

(** ** Strings *)

Lemma length_lower s : length (lower s) = length s.
Proof. apply length_fmap. Qed.

Lemma startswith_prefix p s : startswith p s = true ↔ p `prefix_of` s.
Proof.
  revert s. induction p as [|a p IH]; intros [|b s]; simpl.
  - split; [intros _; apply prefix_nil | done].
  - split; [intros _; apply prefix_nil | done].
  - split; [done | intros [t Ht]; discriminate].
  - rewrite andb_true_iff, bool_decide_eq_true, IH. split.
    + intros [-> H]. by apply prefix_cons.
    + intros [t Ht]. injection Ht as -> ->. split; [done | by exists t].
Qed.

Lemma str_in_infix n h : str_in n h = true ↔ ∃ a b, h = a ++ n ++ b.
Proof.
  induction h as [|c h IH]; simpl.
  - rewrite orb_false_r, startswith_prefix. split.
    + intros [t Ht]. by exists [], t.
    + intros (a & b & H). symmetry in H.
      apply app_eq_nil in H as [-> H]. apply app_eq_nil in H as [-> _].
      apply prefix_nil.
  - rewrite orb_true_iff, startswith_prefix, IH. split.
    + intros [[t Ht] | (a & b & ->)].
      * by exists [], t.
      * by exists (c :: a), b.
    + intros ([|x a] & b & H); simpl in H.
      * left. by exists b.
      * right. injection H as -> ->. by exists a, b.
Qed.

(** ** What the matcher decides

    The engine finds a match exactly when the pattern matches in the
    declarative sense: backtracking changes which match is found first, not
    whether there is one. *)

Section matcher.
Import Re Spec.

Lemma cursor_eta c : Cursor (before c) (pos c) (rest c) (groups c) = c.
Proof. by destruct c. Qed.

Lemma is_Some_orelse {A} (a b : option A) :
  is_Some (match a with Some m => Some m | None => b end) ↔ is_Some a ∨ is_Some b.
Proof.
  destruct a as [m|].
  - split; [by left | by eexists].
  - split; [by right | by intros [[]|]].
Qed.

Lemma rep_spec f a lo hi greedy k s : ∀ n c,
  rest c = s → (∀ h, hi = Some h → n ≤ h) →
  is_Some (rep f a lo hi greedy k n c s) ↔
  ∃ taken s', s = taken ++ s'
    ∧ Forall (λ x, atom_matches f a x = true) taken
    ∧ lo ≤ n + length taken
    ∧ (∀ h, hi = Some h → n + length taken ≤ h)
    ∧ is_Some (k (consume c taken)).
Proof.
  induction s as [|x s IH]; intros n [b p s0 g] Hrest Hn;
    simpl in Hrest; subst s0; cbn [rep before pos groups].
  - split.
    + destruct (lo <=? n) eqn:Hlo; [|by intros []].
      apply Nat.leb_le in Hlo. intros Hk. exists [], [].
      split; [done|]. split; [constructor|]. split; [simpl; lia|].
      split; [|done]. intros h Hh. specialize (Hn h Hh). simpl. lia.
    + intros (taken & s' & Heq & _ & Hlo & _ & Hk).
      symmetry in Heq. apply app_eq_nil in Heq as [-> ->]. simpl in *.
      by rewrite (proj2 (Nat.leb_le _ _)) by lia.
  - set (c := Cursor b p (x :: s) g).
    set (stop := if lo <=? n then k c else None).
    assert (is_Some stop ↔ lo ≤ n ∧ is_Some (k c)) as Hstop.
    { subst stop. destruct (lo <=? n) eqn:Hlo.
      - apply Nat.leb_le in Hlo. tauto.
      - apply Nat.leb_gt in Hlo. split; [by intros [] | lia]. }
    assert ((∃ taken s', x :: s = taken ++ s'
              ∧ Forall (λ x, atom_matches f a x = true) taken
              ∧ lo ≤ n + length taken
              ∧ (∀ h, hi = Some h → n + length taken ≤ h)
              ∧ is_Some (k (consume c taken)))
            ↔ (lo ≤ n ∧ is_Some (k c))
              ∨ (within hi n = true ∧ atom_matches f a x = true
                 ∧ ∃ taken s', s = taken ++ s'
                     ∧ Forall (λ x, atom_matches f a x = true) taken
                     ∧ lo ≤ S n + length taken
                     ∧ (∀ h, hi = Some h → S n + length taken ≤ h)
                     ∧ is_Some (k (consume (advance c x s) taken)))) as Hsplit.
    { split.
      - intros ([|y t] & s' & Heq & Hall & Hlo & Hhi & Hk); simpl in *.
        + left. split; [lia | done].
        + right. injection Heq as <- ->. apply Forall_cons in Hall as [Hx Hall].
          split.
          { destruct hi as [h|]; [|done]. simpl. apply Nat.ltb_lt.
            specialize (Hhi h eq_refl). lia. }
          split; [done|]. exists t, s'. split; [done|]. split; [done|].
          split; [lia|]. split; [|done]. intros h Hh. specialize (Hhi h Hh). lia.
      - intros [[Hlo Hk] | (Hw & Hx & t & s' & -> & Hall & Hlo & Hhi & Hk)].
        + exists [], (x :: s). split; [done|]. split; [constructor|].
          split; [simpl; lia|]. split; [|done].
          intros h Hh. specialize (Hn h Hh). simpl. lia.
        + exists (x :: t), s'. split; [done|]. split; [by constructor|].
          split; [simpl; lia|]. split; [|done].
          intros h Hh. specialize (Hhi h Hh). simpl. lia. }
    rewrite Hsplit. clear Hsplit.
    destruct (within hi n) eqn:Hw; cbn [andb].
    + destruct (atom_matches f a x) eqn:Hx.
      * specialize (IH (S n) (advance c x s) eq_refl).
        rewrite <- IH.
        2: { intros h ->. simpl in Hw. apply Nat.ltb_lt in Hw. lia. }
        destruct greedy; rewrite is_Some_orelse, Hstop; tauto.
      * rewrite Hstop. split; [tauto|]. intros [?|(_ & ? & _)]; done.
    + rewrite Hstop. split; [tauto|]. intros [?|(? & _)]; done.
Qed.

Theorem run_spec f r : ∀ c k,
  is_Some (run f r c k) ↔ ∃ c', Matches f r c c' ∧ is_Some (k c').
Proof.
  induction r as [|a|a lo hi greedy|r1 IH1 r2 IH2|r1 IH1 r2 IH2|i r IH|r IH| | | |];
    intros c k; cbn [run].
  - split; [intros H; exists c; split; [constructor | done]|].
    intros (c' & Hm & Hk). by inversion Hm; subst.
  - destruct (rest c) as [|x xs] eqn:Hrest.
    + split; [by intros []|]. intros (c' & Hm & _). inversion Hm; subst. congruence.
    + destruct (atom_matches f a x) eqn:Hx.
      * split; [intros H; eexists; split; [by econstructor | done]|].
        intros (c' & Hm & Hk). inversion Hm; subst.
        rewrite Hrest in *. by simplify_eq.
      * split; [by intros []|]. intros (c' & Hm & _). inversion Hm; subst.
        rewrite Hrest in *. simplify_eq. congruence.
  - rewrite rep_spec; [|done|intros; lia]. split.
    + intros (taken & s' & Hrest & Hall & Hlo & Hhi & Hk). eexists. split; [|exact Hk].
      by econstructor.
    + intros (c' & Hm & Hk). inversion Hm; subst. by eexists _, _.
  - rewrite IH1. split.
    + intros (c1 & Hm1 & (c2 & Hm2 & Hk)%IH2). exists c2. split; [by econstructor|done].
    + intros (c2 & Hm & Hk). inversion Hm; subst. eexists. split; [done|].
      apply IH2. by eexists.
  - rewrite is_Some_orelse, IH1, IH2. split.
    + intros [(c' & Hm & Hk)|(c' & Hm & Hk)]; exists c'; split; try done.
      * by apply M_Alt_l.
      * by apply M_Alt_r.
    + intros (c' & Hm & Hk). inversion Hm; subst; [left | right]; by eexists.
  - rewrite IH. split.
    + intros (c' & Hm & Hk). eexists. split; [by econstructor | done].
    + intros (c' & Hm & Hk). inversion Hm; subst. by eexists.
  - destruct (run f r c Some) as [m|] eqn:Hrun.
    + assert (is_Some (run f r c Some)) as Hs by by rewrite Hrun.
      apply IH in Hs as (c' & Hm & _). split.
      * intros Hk. exists c. split; [by econstructor | done].
      * intros (c'' & Hm' & Hk). by inversion Hm'; subst.
    + split; [by intros []|]. intros (c'' & Hm' & Hk). inversion Hm'; subst.
      assert (is_Some (run f r c'' Some)) as Hs by (apply IH; by eexists).
      rewrite Hrun in Hs. by destruct Hs.
  - (* Bol *)
    assert (before c = None ∨ (MULTILINE f = true ∧ before c = Some LF)
            ↔ match before c with
              | None => True
              | Some x => MULTILINE f && bool_decide (x = LF) = true
              end) as Hcond.
    { destruct (before c) as [x|]; [|tauto].
      rewrite andb_true_iff, bool_decide_eq_true. split.
      - intros [?|[? [= ->]]]; done.
      - intros [? ->]. by right. }
    split.
    + intros Hk. exists c. split; [|by destruct (before c) as [x|];
        [destruct (MULTILINE f && bool_decide (x = LF)); [done | by destruct Hk]|]].
      constructor. apply Hcond. destruct (before c) as [x|]; [|done].
      destruct (MULTILINE f && bool_decide (x = LF)); [done | by destruct Hk].
    + intros (c' & Hm & Hk). inversion Hm as [| | | | | | | |? Hb| | |]; subst.
      apply Hcond in Hb. destruct (before c') as [x|]; [|done]. by rewrite Hb.
  - (* Eol *)
    assert (rest c = [] ∨ rest c = [LF]
            ∨ (MULTILINE f = true ∧ head (rest c) = Some LF)
            ↔ match rest c with
              | [] => True
              | [x] => x = LF
              | x :: _ => MULTILINE f && bool_decide (x = LF) = true
              end) as Hcond.
    { destruct (rest c) as [|x [|y s]]; simpl.
      - tauto.
      - split; [|intros ->; tauto].
        intros [?|[[= ->]|[_ [= ->]]]]; done.
      - rewrite andb_true_iff, bool_decide_eq_true. split.
        + intros [?|[?|[? [= ->]]]]; done.
        + intros [? ->]. tauto. }
    split.
    + intros Hk. exists c.
      assert (match rest c with
              | [] => True
              | [x] => x = LF
              | x :: _ => MULTILINE f && bool_decide (x = LF) = true
              end ∧ is_Some (k c)) as [H1 H2].
      { destruct (rest c) as [|x [|y s]]; [done| |].
        - destruct (decide (x = LF)) as [->|Hx].
          + by rewrite bool_decide_eq_true_2 in Hk.
          + rewrite bool_decide_eq_false_2 in Hk by done. by destruct Hk.
        - destruct (MULTILINE f && bool_decide (x = LF)); [done | by destruct Hk]. }
      split; [|done]. constructor. by apply Hcond.
    + intros (c' & Hm & Hk). inversion Hm as [| | | | | | | | |? Hb| |]; subst.
      apply Hcond in Hb. destruct (rest c') as [|x [|y s]]; [done| |].
      * by rewrite bool_decide_eq_true_2.
      * by rewrite Hb.
  - (* EndZ *)
    split.
    + intros Hk. destruct (rest c) eqn:Hrest; [|by destruct Hk].
      exists c. split; [by constructor | done].
    + intros (c' & Hm & Hk). inversion Hm as [| | | | | | | | | |? Hb|]; subst.
      by rewrite Hb.
  - (* WordB *)
    split.
    + intros Hk. destruct (xorb (word_before c) (word_after c)) eqn:Hx;
        [|by destruct Hk].
      exists c. split; [|done]. constructor.
      by destruct (word_before c), (word_after c).
    + intros (c' & Hm & Hk). inversion Hm as [| | | | | | | | | | |? Hb]; subst.
      by destruct (word_before c'), (word_after c').
Qed.

Lemma consume_rest c taken s : rest c = taken ++ s → rest (consume c taken) = s.
Proof.
  revert c. induction taken as [|x t IH]; intros c Hrest; [done|].
  cbn [consume]. apply IH. rewrite Hrest. done.
Qed.

Lemma consume_app c t1 t2 : consume c (t1 ++ t2) = consume (consume c t1) t2.
Proof. revert c. induction t1 as [|x t IH]; intros c; [done|]. apply IH. Qed.

Lemma Matches_Eps f c c' : Matches f Eps c c' ↔ c' = c.
Proof. split; [by inversion 1 | intros ->; constructor]. Qed.

Lemma Matches_Cat f r1 r2 c c' :
  Matches f (Cat r1 r2) c c' ↔ ∃ c1, Matches f r1 c c1 ∧ Matches f r2 c1 c'.
Proof.
  split.
  - inversion 1; subst. by eexists.
  - intros (c1 & H1 & H2). by econstructor.
Qed.

Lemma Matches_One f a c c' :
  Matches f (One a) c c' ↔
  ∃ x, rest c = x :: rest c' ∧ atom_matches f a x = true ∧ c' = consume c [x].
Proof.
  split.
  - inversion 1 as [|? ? x xs Hrest Hx| | | | | | | | | |]; subst.
    exists x. cbn [consume advance rest]. rewrite Hrest. done.
  - intros (x & Hrest & Hx & ->). cbn [consume]. rewrite Hrest.
    by constructor.
Qed.

Lemma Matches_Rep f a lo hi g c c' :
  Matches f (Rep a lo hi g) c c' ↔
  ∃ taken, rest c = taken ++ rest c'
    ∧ Forall (λ x, atom_matches f a x = true) taken
    ∧ lo ≤ length taken ∧ (∀ h, hi = Some h → length taken ≤ h)
    ∧ c' = consume c taken.
Proof.
  split.
  - inversion 1 as [| |? ? ? ? ? taken s Hrest Hall Hlo Hhi| | | | | | | | |]; subst.
    exists taken. by rewrite (consume_rest _ _ _ Hrest).
  - intros (taken & Hrest & Hall & Hlo & Hhi & ->). by econstructor.
Qed.

Lemma Matches_lit f w c c' :
  Matches f (lit w) c c' ↔
  ∃ taken, rest c = taken ++ rest c'
    ∧ Forall2 (λ x y, atom_matches f (Lit y) x = true) taken (str w)
    ∧ c' = consume c taken.
Proof.
  unfold lit. generalize (str w). clear w. intros w. revert c.
  induction w as [|y w IH]; intros c; cbn [foldr].
  - rewrite Matches_Eps. split.
    + intros ->. exists []. split; [done|]. split; [constructor | done].
    + intros (taken & Hrest & Hall & ->). by apply Forall2_nil_inv_r in Hall as ->.
  - rewrite Matches_Cat. split.
    + intros (c1 & (x & Hrest & Hx & ->)%Matches_One
                 & (taken & Hrest' & Hall & ->)%IH).
      exists (x :: taken). split; [by rewrite Hrest, Hrest'|].
      split; [by constructor | done].
    + intros (taken & Hrest & Hall & ->).
      apply Forall2_cons_inv_r in Hall as (x & t & Hx & Hall & ->).
      exists (consume c [x]). split.
      * apply Matches_One. exists x. split; [|done].
        rewrite (consume_rest c [x] (t ++ rest (consume c (x :: t)))); [|done].
        done.
      * apply IH. exists t. split; [|done].
        rewrite (consume_rest c [x] (t ++ rest (consume c (x :: t)))); done.
Qed.

Lemma lit_exact f taken w :
  IGNORECASE f = false →
  Forall2 (λ x y, atom_matches f (Lit y) x = true) taken w ↔ taken = w.
Proof.
  intros Hf. split.
  - induction 1 as [|x y t w Hx _ IH]; [done|]. cbn in Hx. rewrite Hf in Hx.
    apply bool_decide_eq_true in Hx. by subst.
  - intros ->. induction w as [|y w IH]; constructor; [|done].
    cbn. rewrite Hf. by apply bool_decide_eq_true.
Qed.

Lemma lit_ignorecase f taken w :
  IGNORECASE f = true →
  Forall2 (λ x y, atom_matches f (Lit y) x = true) taken w ↔ lower taken = lower w.
Proof.
  intros Hf. split.
  - induction 1 as [|x y t w Hx _ IH]; [done|]. cbn in Hx. rewrite Hf in Hx.
    apply bool_decide_eq_true in Hx. unfold lower in *. rewrite !fmap_cons.
    by f_equal.
  - revert w. induction taken as [|x t IH]; intros [|y w] Heq;
      try discriminate Heq; constructor.
    + cbn. rewrite Hf. apply bool_decide_eq_true. by injection Heq.
    + apply IH. by injection Heq.
Qed.

Lemma match_start_is_Some f r text :
  is_Some (match_start f r text) ↔ ∃ c', Matches f r (Cursor None 0 text []) c'.
Proof.
  unfold match_start, match_here. rewrite fmap_is_Some, run_spec.
  split; intros (c' & H); exists c'; [tauto | by split].
Qed.

Lemma atom_digit f x : atom_matches f digit x = is_digit x.
Proof.
  cbn. unfold class_has. cbn. rewrite !orb_false_r.
  destruct (is_digit x) eqn:Hx; [done|]. cbn.
  destruct (IGNORECASE f); [|done]. cbn.
  revert Hx. destruct x as [[] [] [] [] [] [] [] []]; vm_compute; congruence.
Qed.

Lemma atom_any_no_flags x : atom_matches no_flags Any x = true ↔ x ≠ LF.
Proof.
  cbn. rewrite negb_true_iff, bool_decide_eq_false. done.
Qed.

Lemma shape_ok_spec s : Verifier.shape_ok s = true ↔ doi_shaped s.
Proof.
  unfold Verifier.shape_ok. rewrite bool_decide_eq_true, match_start_is_Some.
  unfold Verifier.SHAPE, seq, plus. cbn [foldr]. split.
  - intros (c' & (c1 & Hbol & (c2 & H10 & (c3 & Hdig & (c4 & Hslash & (c5 & Hany
        & (c6 & Heol & ->%Matches_Eps)%Matches_Cat)%Matches_Cat)%Matches_Cat
        )%Matches_Cat)%Matches_Cat)%Matches_Cat).
    inversion Hbol; subst. inversion Heol as [| | | | | | | | |? Hend| |]; subst.
    apply Matches_lit in H10 as (t1 & Hr1 & ->%lit_exact & ->); [|done].
    apply Matches_Rep in Hdig as (ds & Hr2 & Hds & Hlen & _ & ->).
    apply Matches_lit in Hslash as (t2 & Hr3 & ->%lit_exact & ->); [|done].
    apply Matches_Rep in Hany as (body & Hr4 & Hbody & Hlen' & _ & ->).
    set (c0 := Cursor None 0 s []) in *.
    set (r1 := rest (consume c0 (str "10."))) in *.
    set (r2 := rest (consume (consume c0 (str "10.")) ds)) in *.
    set (r3 := rest (consume (consume (consume c0 (str "10.")) ds) (str "/"))) in *.
    set (r4 := rest (consume (consume (consume (consume c0 (str "10.")) ds)
                                (str "/")) body)) in *.
    cbn [rest c0] in Hr1. clearbody r1 r2 r3 r4.
    exists ds, body, r4. split; [by rewrite Hr1, Hr2, Hr3, Hr4|].
    split; [done|]. split.
    { eapply Forall_impl; [exact Hds|]. intros x; cbv beta. by rewrite atom_digit. }
    split; [by destruct body; [simpl in Hlen'; lia|]|]. split.
    { eapply Forall_impl; [exact Hbody|]. intros x; cbv beta. by rewrite atom_any_no_flags. }
    destruct Hend as [?|[?|[? _]]]; [by left | by right | done].
  - intros (ds & body & nl & -> & Hlen & Hds & Hne & Hbody & Hnl).
    set (c0 := Cursor None 0 (str "10." ++ ds ++ str "/" ++ body ++ nl) []).
    set (c2 := consume c0 (str "10.")).
    set (c3 := consume c2 ds).
    set (c4 := consume c3 (str "/")).
    set (c5 := consume c4 body).
    assert (rest c2 = ds ++ str "/" ++ body ++ nl) as Hr2 by by apply consume_rest.
    assert (rest c3 = str "/" ++ body ++ nl) as Hr3 by by apply consume_rest.
    assert (rest c4 = body ++ nl) as Hr4 by by apply consume_rest.
    assert (rest c5 = nl) as Hr5 by by apply consume_rest.
    exists c5. apply Matches_Cat. exists c0. split; [constructor; by left|].
    apply Matches_Cat. exists c2. split.
    { apply Matches_lit. exists (str "10."). split; [by rewrite Hr2|].
      split; [by apply lit_exact | done]. }
    apply Matches_Cat. exists c3. split.
    { apply Matches_Rep. exists ds. split; [by rewrite Hr2, Hr3|]. split.
      { eapply Forall_impl; [exact Hds|]. intros x; cbv beta. by rewrite atom_digit. }
      done. }
    apply Matches_Cat. exists c4. split.
    { apply Matches_lit. exists (str "/"). split; [by rewrite Hr3, Hr4|].
      split; [by apply lit_exact | done]. }
    apply Matches_Cat. exists c5. split.
    { apply Matches_Rep. exists body. split; [by rewrite Hr4, Hr5|]. split.
      { eapply Forall_impl; [exact Hbody|]. intros x; cbv beta. by rewrite atom_any_no_flags. }
      split; [destruct body; [done | simpl; lia]|]. done. }
    apply Matches_Cat. exists c5. split; [|by apply Matches_Eps].
    constructor. rewrite Hr5. destruct Hnl as [->| ->]; [by left | right; by left].
Qed.

End matcher.

(** ** The DOI Token Matcher keeps first occurrences *)

Section dedup.
Import Spec Extractor.

Lemma filter_dedup_ci (P : pystr → Prop) `{!∀ x, Decision (P x)} l :
  (∀ x y, lower x = lower y → P x → P y) →
  filter P (dedup_ci l) = dedup_ci (filter P l).
Proof.
  intros HP. induction l as [|x l IH]; [done|]. simpl.
  rewrite !filter_cons. destruct (decide (P x)) as [Hx|Hx]; simpl.
  - rewrite <- IH. f_equal. rewrite !list_filter_filter.
    apply list_filter_iff. tauto.
  - rewrite <- IH. rewrite list_filter_filter.
    apply list_filter_iff. intros y. split; [tauto|].
    intros Hy. split; [done|]. intros Heq. apply Hx. by apply (HP y).
Qed.

Lemma dedup_step_keep acc seen m :
  10 < length (clean_doi m) → lower (clean_doi m) ∉ seen →
  dedup_step (acc, seen) m =
  (acc ++ [clean_doi m], {[lower (clean_doi m)]} ∪ seen).
Proof.
  intros Hlen Hnew. unfold dedup_step.
  rewrite bool_decide_eq_true_2 by done.
  by rewrite (proj2 (Nat.ltb_lt _ _) Hlen).
Qed.

Lemma dedup_step_drop acc seen m :
  ¬ (10 < length (clean_doi m) ∧ lower (clean_doi m) ∉ seen) →
  dedup_step (acc, seen) m = (acc, seen).
Proof.
  intros Hno. unfold dedup_step.
  destruct (decide (lower (clean_doi m) ∉ seen)) as [Hnew|Hold].
  - rewrite bool_decide_eq_true_2 by done.
    destruct (10 <? length (clean_doi m)) eqn:E; [|done].
    apply Nat.ltb_lt in E. tauto.
  - by rewrite bool_decide_eq_false_2.
Qed.

Lemma dedup_loop ms acc seen :
  (foldl dedup_step (acc, seen) ms).1 =
  acc ++ dedup_ci (filter (λ d, lower d ∉ seen) (kept (clean_doi <$> ms))).
Proof.
  revert acc seen. induction ms as [|m ms IH]; intros acc seen.
  { simpl. by rewrite app_nil_r. }
  rewrite fmap_cons. unfold kept in *. cbn [foldl].
  destruct (decide (10 < length (clean_doi m) ∧ lower (clean_doi m) ∉ seen))
    as [[Hlen Hnew]|Hno].
  - rewrite dedup_step_keep, IH, <- app_assoc by done.
    rewrite (filter_cons_True (λ d, 10 < length d)) by done.
    rewrite (filter_cons_True (λ d, lower d ∉ seen)) by done.
    cbn [dedup_ci app]. do 2 f_equal.
    rewrite (filter_dedup_ci (λ y, lower y ≠ lower (clean_doi m)))
      by congruence.
    f_equal. rewrite !list_filter_filter. apply list_filter_iff.
    intros y. rewrite not_elem_of_union, not_elem_of_singleton. tauto.
  - rewrite dedup_step_drop, IH by done. do 2 f_equal.
    destruct (decide (10 < length (clean_doi m))) as [Hlen|Hlen].
    + rewrite (filter_cons_True (λ d, 10 < length d)) by done.
      rewrite filter_cons_False; [done | tauto].
    + by rewrite (filter_cons_False (λ d, 10 < length d)).
Qed.

Lemma NoDup_fmap_filter {A B} (f : A → B) (P : A → Prop)
    `{!∀ x, Decision (P x)} (l : list A) :
  NoDup (f <$> l) → NoDup (f <$> filter P l).
Proof.
  induction l as [|x l IH]; [done|].
  rewrite fmap_cons, filter_cons. intros [Hx Hl]%NoDup_cons.
  destruct (decide (P x)); [|by apply IH].
  rewrite fmap_cons. apply NoDup_cons. split; [|by apply IH].
  intros (y & Hy & Hin)%list_elem_of_fmap.
  apply list_elem_of_filter in Hin as [_ Hin].
  apply Hx. apply list_elem_of_fmap. by exists y.
Qed.

Lemma dedup_ci_lower_NoDup l : NoDup (lower <$> dedup_ci l).
Proof.
  induction l as [|x l IH]; cbn [dedup_ci]; [constructor|].
  rewrite fmap_cons. constructor.
  - intros (y & Hy & Hin)%list_elem_of_fmap.
    apply list_elem_of_filter in Hin as [Hne _]. congruence.
  - by apply NoDup_fmap_filter.
Qed.

Lemma dedup_ci_sublist l : sublist (dedup_ci l) l.
Proof.
  induction l as [|x l IH]; simpl; [done|].
  apply sublist_skip. etrans; [apply sublist_filter | done].
Qed.

(** The first element with a given lower-case form survives. *)
Lemma dedup_ci_first l1 c l2 :
  (∀ c', c' ∈ l1 → lower c' ≠ lower c) → c ∈ dedup_ci (l1 ++ c :: l2).
Proof.
  induction l1 as [|x l1 IH]; intros Hfirst; simpl.
  - left.
  - right. apply list_elem_of_filter. split.
    + intros Heq. apply (Hfirst x); [left | done].
    + apply IH. intros c' Hc'. apply Hfirst. by right.
Qed.

End dedup.

(** C4: [extract_dois] returns the cleaned matches longer than 10 characters
    without their case-insensitive repetitions: the lower-case forms of the
    result are pairwise distinct, the result keeps the order of the matches,
    every first occurrence of a kept form is in it with its own casing, and
    no string of 10 characters or fewer is. *)
Theorem extract_dois_first_occurrence_wins (text : pystr) :
  let cleaned := Extractor.clean_doi <$> Re.findall Extractor.DOI_FLAGS Extractor.DOI_PATTERN text in
  Extractor.extract_dois text = Spec.dedup_ci (Spec.kept cleaned)
  ∧ NoDup (lower <$> Extractor.extract_dois text)
  ∧ Extractor.extract_dois text `sublist_of` cleaned
  ∧ (∀ d, d ∈ Extractor.extract_dois text → 10 < length d)
  ∧ (∀ l1 c l2, cleaned = l1 ++ c :: l2 → 10 < length c →
       (∀ c', c' ∈ l1 → lower c' ≠ lower c) →
       c ∈ Extractor.extract_dois text).
Proof.
  intros cleaned.
  assert (Extractor.extract_dois text = Spec.dedup_ci (Spec.kept cleaned)) as Heq.
  { unfold Extractor.extract_dois. rewrite dedup_loop. simpl.
    f_equal. fold cleaned. generalize (Spec.kept cleaned). intros l.
    induction l as [|d l IH]; [done|].
    rewrite filter_cons_True by apply not_elem_of_empty. by f_equal. }
  rewrite Heq. split; [done|]. split; [apply dedup_ci_lower_NoDup|].
  split; [|split].
  - etrans; [apply dedup_ci_sublist | apply sublist_filter].
  - intros d Hd. eapply elem_of_sublist in Hd; [|apply dedup_ci_sublist].
    by apply list_elem_of_filter in Hd as [Hlen _].
  - intros l1 c l2 -> Hlen Hfirst. unfold Spec.kept.
    rewrite filter_app, filter_cons_True by done.
    apply dedup_ci_first. intros c' [_ Hc']%list_elem_of_filter. by apply Hfirst.
Qed.

(** ** The Citation Assembler *)

Section assembler.
Import Spec Extractor.

Lemma contains_ci_decide d body :
  str_in (lower d) (lower body) = true ↔ contains_ci d body.
Proof. apply str_in_infix. Qed.

Lemma doi_loop_Some all_dois body d :
  doi_loop all_dois body = Some d ↔
  ∃ l1 l2, all_dois = l1 ++ d :: l2 ∧ contains_ci d body
           ∧ ∀ d', d' ∈ l1 → ¬ contains_ci d' body.
Proof.
  induction all_dois as [|x l IH]; simpl.
  - split; [done|]. intros ([|??] & ? & ? & _); discriminate.
  - destruct (str_in (lower x) (lower body)) eqn:Hx.
    + apply contains_ci_decide in Hx. split.
      * intros [= ->]. exists [], l. split; [done|]. split; [done|].
        intros d' Hd'. by apply elem_of_nil in Hd'.
      * intros ([|y l1] & l2 & Heq & Hd & Hnone); simpl in Heq.
        -- by injection Heq as -> _.
        -- injection Heq as -> _. exfalso. apply (Hnone y); [left | done].
    + assert (¬ contains_ci x body) as Hnx.
      { intros H%contains_ci_decide. congruence. }
      rewrite IH. split.
      * intros (l1 & l2 & -> & Hd & Hnone). exists (x :: l1), l2.
        split; [done|]. split; [done|].
        intros d' [->|Hd']%elem_of_cons; [done | by apply Hnone].
      * intros ([|y l1] & l2 & Heq & Hd & Hnone); simpl in Heq.
        -- injection Heq as -> _. done.
        -- injection Heq as -> ->. exists l1, l2. split; [done|].
           split; [done|]. intros d' Hd'. apply Hnone. by right.
Qed.

Lemma doi_loop_None all_dois body :
  doi_loop all_dois body = None ↔ ∀ d, d ∈ all_dois → ¬ contains_ci d body.
Proof.
  induction all_dois as [|x l IH]; simpl.
  - split; [|done]. intros _ d Hd. by apply elem_of_nil in Hd.
  - destruct (str_in (lower x) (lower body)) eqn:Hx.
    + apply contains_ci_decide in Hx. split; [done|].
      intros H. exfalso. apply (H x); [left | done].
    + rewrite IH. split.
      * intros H d [->|Hd]%elem_of_cons; [|by apply H].
        intros Hc%contains_ci_decide. congruence.
      * intros H d Hd. apply H. by right.
Qed.

(** The citations of a successful run, on the segmented path and on the
    DOI-only path. *)
Lemma citations_segmented name full_text pages :
  full_text ≠ [] →
  parse_numbered_citations (reference_text full_text) ≠ [] →
  citations (extract_citations name (Extracted full_text pages)) =
  from_parsed (extract_dois (reference_text full_text))
    <$> parse_numbered_citations (reference_text full_text).
Proof.
  intros Hne Hparsed. destruct full_text as [|c s]; [done|].
  cbn [extract_citations citations].
  by destruct (parse_numbered_citations (reference_text (c :: s))).
Qed.

Lemma citations_doi_only name full_text pages :
  full_text ≠ [] →
  parse_numbered_citations (reference_text full_text) = [] →
  citations (extract_citations name (Extracted full_text pages)) =
  imap from_doi (extract_dois (reference_text full_text)).
Proof.
  intros Hne Hparsed. destruct full_text as [|c s]; [done|].
  cbn [extract_citations citations]. by rewrite Hparsed.
Qed.

End assembler.

(** C3: on the segmented path the entry at each position carries the number
    of the parsed citation, and its DOI is the first one of the deduplicated
    DOI list, in the list's order, that occurs in the trimmed body whatever
    the case; it is null exactly when no DOI of the list occurs in it. *)
Theorem assembler_attaches_first_contained_doi
    (name full_text : pystr) (pages i : nat) (num : Z) (body : pystr) :
  full_text ≠ [] →
  Extractor.parse_numbered_citations (Extractor.reference_text full_text) !! i
    = Some (num, body) →
  let all_dois := Extractor.extract_dois (Extractor.reference_text full_text) in
  ∃ c, Extractor.citations
         (Extractor.extract_citations name (Extractor.Extracted full_text pages)) !! i
       = Some c
     ∧ Extractor.number c = num
     ∧ (∀ d, Extractor.doi c = Some d ↔
             ∃ l1 l2, all_dois = l1 ++ d :: l2 ∧ Spec.contains_ci d body
                      ∧ ∀ d', d' ∈ l1 → ¬ Spec.contains_ci d' body)
     ∧ (Extractor.doi c = None ↔ ∀ d, d ∈ all_dois → ¬ Spec.contains_ci d body).
Proof.
  intros Hne Hi all_dois.
  exists (Extractor.from_parsed all_dois (num, body)). split.
  - rewrite citations_segmented; [|done|].
    + by rewrite list_lookup_fmap, Hi.
    + intros Hnil. by rewrite Hnil in Hi.
  - split; [done|]. split.
    + intros d. apply doi_loop_Some.
    + apply doi_loop_None.
Qed.

Lemma assembler_attaches_first_contained_doi_witness :
  ∃ c, Extractor.citations
         (Extractor.extract_citations [] (Extractor.Extracted Sample.document 1)) !! 0
       = Some c
     ∧ Extractor.number c = 1%Z
     ∧ Extractor.doi c = Some (str "10.1000/xyz123").
Proof.
  destruct (assembler_attaches_first_contained_doi
              [] Sample.document 1 0 1%Z Sample.entry_1)
    as (c & Hc & Hnum & Hdoi & _).
  - vm_compute. discriminate.
  - vm_compute. reflexivity.
  - exists c. split; [exact Hc|]. split; [exact Hnum|].
    apply Hdoi. exists [], []. split; [vm_compute; reflexivity|].
    split.
    + apply contains_ci_decide. vm_compute. reflexivity.
    + intros d' Hd'. apply elem_of_nil in Hd'. destruct Hd'.
Defined.

(** ** Text length of the assembled entries *)

Lemma from_parsed_text_length all_dois c :
  length (Extractor.text (Extractor.from_parsed all_dois c)) ≤ 500.
Proof. destruct c as [num body]. simpl. rewrite length_take. lia. Qed.

Lemma from_doi_text_length i d :
  length (Extractor.text (Extractor.from_doi i d)) = 5 + length d.
Proof. unfold Extractor.from_doi. cbn [Extractor.text]. by rewrite length_app. Qed.

(** The text of the entries of a successful run: on the segmented path it
    has at most 500 characters; on the DOI-only path the entry of the DOI at
    position [i] is numbered [i + 1] and its text is ["DOI: " ++ d], of
    [5 + length d] characters, whatever the length of [d]. *)
Theorem citation_text_capped_on_segmented_path
    (name full_text : pystr) (pages : nat) :
  full_text ≠ [] →
  let r := Extractor.extract_citations name (Extractor.Extracted full_text pages) in
  let ref_text := Extractor.reference_text full_text in
  Extractor.success r = true
  ∧ (Extractor.parse_numbered_citations ref_text ≠ [] →
     ∀ c, c ∈ Extractor.citations r → length (Extractor.text c) ≤ 500)
  ∧ (Extractor.parse_numbered_citations ref_text = [] →
     ∀ i d, Extractor.extract_dois ref_text !! i = Some d →
       ∃ c, Extractor.citations r !! i = Some c
          ∧ Extractor.number c = Z.of_nat (i + 1)
          ∧ Extractor.doi c = Some d
          ∧ Extractor.text c = str "DOI: " ++ d
          ∧ length (Extractor.text c) = 5 + length d).
Proof.
  intros Hne r ref_text. split; [|split].
  - subst r. by destruct full_text.
  - intros Hparsed c Hc. subst r.
    rewrite citations_segmented in Hc by done.
    apply list_elem_of_fmap in Hc as (e & -> & _).
    apply from_parsed_text_length.
  - intros Hparsed i d Hi. subst r.
    rewrite citations_doi_only by done. exists (Extractor.from_doi i d).
    split; [by apply list_lookup_imap_Some; exists d|].
    split; [done|]. split; [done|]. split; [done|].
    apply from_doi_text_length.
Qed.

Lemma citation_text_capped_on_segmented_path_witness :
  Forall (λ c, length (Extractor.text c) ≤ 500)
    (Extractor.citations
       (Extractor.extract_citations [] (Extractor.Extracted Sample.document 1))).
Proof.
  apply Forall_forall.
  refine (proj1 (proj2 (citation_text_capped_on_segmented_path
                          [] Sample.document 1 _)) _).
  - vm_compute. discriminate.
  - vm_compute. discriminate.
Defined.

(** C7: the cap of 500 characters, which the segmented path applies to the
    text of every entry, is missing on the DOI-only path: a document whose
    only DOI has 508 characters yields a successful result whose single
    entry has a text of 513 characters. *)
Lemma citation_text_over_500_on_doi_only_path :
  let r := Extractor.extract_citations []
             (Extractor.Extracted Sample.long_doi_document 1) in
  Extractor.success r = true
  ∧ ∃ c, Extractor.citations r = [c]
       ∧ Extractor.text c = str "DOI: " ++ Sample.long_doi
       ∧ length (Extractor.text c) = 513
       ∧ ¬ length (Extractor.text c) ≤ 500.
Proof.
  split; [reflexivity|].
  exists (Extractor.from_doi 0 Sample.long_doi).
  split; [vm_compute; reflexivity|]. split; [reflexivity|].
  split; [vm_compute; reflexivity|].
  rewrite from_doi_text_length. vm_compute. lia.
Qed.

(** ** Failure and success of [extract_citations] *)

Section failure.
Import Re Spec Extractor.

(** Where no conversion raises, the segmenter and the pipeline are the ones
    without exceptions. *)
Lemma collect_raising_loop text ms st l :
  foldl (collect_raising text) st ms = inr l →
  ∃ acc, st = inr acc ∧ foldl (collect text) acc ms = l.
Proof.
  revert st. induction ms as [|m ms IH]; intros st; cbn [foldl].
  - intros ->. by exists l.
  - intros (acc' & Hst & Hl)%IH. destruct st as [e|acc]; [done|].
    exists acc. split; [done|]. cbn [collect_raising] in Hst.
    unfold collect. destruct (int (group text m 1)) as [e|num] eqn:Hint; [done|].
    unfold int in Hint. destruct (MAX_STR_DIGITS <? _); [done|].
    injection Hint as <-.
    destruct (20 <? length (strip (group text m 2))); by injection Hst as <-.
Qed.

Lemma pattern_loop_raising_inr pats text acc l :
  pattern_loop_raising pats text acc = inr l → pattern_loop pats text acc = l.
Proof.
  induction pats as [|p pats IH]; cbn [pattern_loop_raising pattern_loop].
  - by intros [= ->].
  - destruct (negb (bool_decide (finditer CITATION_FLAGS p text = []))
              && (3 <? length (finditer CITATION_FLAGS p text))); [|done].
    intros (acc' & [= <-] & Hl)%collect_raising_loop. done.
Qed.

Lemma parse_numbered_citations_raising_inr text l :
  parse_numbered_citations_raising text = inr l → parse_numbered_citations text = l.
Proof. apply pattern_loop_raising_inr. Qed.

Lemma pattern_loop_raising_below pats text acc :
  (∀ p, p ∈ pats → length (finditer CITATION_FLAGS p text) ≤ 3) →
  pattern_loop_raising pats text acc = inr acc.
Proof.
  induction pats as [|p pats IH]; intros Hall; [done|].
  cbn [pattern_loop_raising].
  rewrite (proj2 (Nat.ltb_ge _ _)) by (apply Hall; left).
  rewrite andb_false_r. apply IH. intros p' Hp'. apply Hall. by right.
Qed.

(** The loop raises only at a match whose number has more than 4300
    digits. *)
Lemma collect_raising_loop_inl text ms st e :
  foldl (collect_raising text) st ms = inl e →
  st = inl e ∨ ∃ m, m ∈ ms ∧ MAX_STR_DIGITS < length (group text m 1).
Proof.
  revert st. induction ms as [|m ms IH]; intros st; cbn [foldl]; [by left|].
  intros [Hst | (m' & Hm' & Hlong)]%IH.
  - destruct st as [e'|acc]; [by left|]. right. exists m. split; [by left|].
    cbn [collect_raising] in Hst. unfold int in Hst.
    destruct (MAX_STR_DIGITS <? length (group text m 1)) eqn:Hlen.
    + by apply Nat.ltb_lt.
    + by destruct (20 <? length (strip (group text m 2))).
  - right. exists m'. split; [by right | done].
Qed.

Lemma pattern_loop_raising_inl pats text acc e :
  pattern_loop_raising pats text acc = inl e →
  ∃ earlier p later m,
    pats = earlier ++ p :: later
    ∧ (∀ q, q ∈ earlier → length (finditer CITATION_FLAGS q text) ≤ 3)
    ∧ 3 < length (finditer CITATION_FLAGS p text)
    ∧ m ∈ finditer CITATION_FLAGS p text
    ∧ MAX_STR_DIGITS < length (group text m 1).
Proof.
  induction pats as [|p pats IH]; cbn [pattern_loop_raising]; [done|].
  destruct (negb (bool_decide (finditer CITATION_FLAGS p text = []))
            && (3 <? length (finditer CITATION_FLAGS p text))) eqn:Hacc.
  - intros [? | (m & Hm & Hlong)]%collect_raising_loop_inl; [done|].
    apply andb_true_iff in Hacc as [_ Hacc%Nat.ltb_lt].
    exists [], p, pats, m. split; [done|]. split; [|done].
    by intros q ?%elem_of_nil.
  - intros (earlier & p' & later & m & -> & Hearlier & H)%IH.
    exists (p :: earlier), p', later, m. split; [done|]. split; [|done].
    intros q [->|Hq]%elem_of_cons; [|by apply Hearlier].
    apply andb_false_iff in Hacc as [Hacc|Hacc%Nat.ltb_ge]; [|done].
    apply negb_false_iff, bool_decide_eq_true in Hacc. rewrite Hacc. cbn. lia.
Qed.

(** A conversion raises only where the numbering convention that is
    accepted, the first one with more than three matches, has a match whose
    number has more than 4300 digits. *)
Lemma conversion_raises_long_number pdf :
  conversion_raises pdf →
  ∃ full_text pages earlier p later m,
    pdf = Extracted full_text pages
    ∧ patterns = earlier ++ p :: later
    ∧ (∀ q, q ∈ earlier →
            length (finditer CITATION_FLAGS q (reference_text full_text)) ≤ 3)
    ∧ 3 < length (finditer CITATION_FLAGS p (reference_text full_text))
    ∧ m ∈ finditer CITATION_FLAGS p (reference_text full_text)
    ∧ 4300 < length (group (reference_text full_text) m 1).
Proof.
  intros (full_text & pages & e & -> & _ & Hraise).
  apply pattern_loop_raising_inl in Hraise
    as (earlier & p & later & m & Hpats & Hearlier & Hmany & Hm & Hlong).
  by exists full_text, pages, earlier, p, later, m.
Qed.

Lemma extract_citations_raising_agrees name pdf :
  ¬ conversion_raises pdf →
  extract_citations_raising name pdf = extract_citations name pdf.
Proof.
  intros Hno. destruct pdf as [[|c s] pages | msg | msg]; try done.
  cbn [extract_citations_raising extract_citations].
  destruct (parse_numbered_citations_raising (reference_text (c :: s)))
    as [e|l] eqn:Hparse.
  - exfalso. apply Hno. by exists (c :: s), pages, e.
  - by rewrite (parse_numbered_citations_raising_inr _ _ Hparse).
Qed.

Lemma failed_result_is_empty name pdf :
  success (extract_citations_raising name pdf) = false →
  citations (extract_citations_raising name pdf) = []
  ∧ dois_found (extract_citations_raising name pdf) = []
  ∧ is_Some (error (extract_citations_raising name pdf)).
Proof.
  destruct pdf as [[|c s] pages | msg | msg];
    cbn [extract_citations_raising]; [by eauto| |by eauto|by eauto].
  destruct (parse_numbered_citations_raising (reference_text (c :: s)));
    cbn [success citations dois_found error]; [by eauto | done].
Qed.

End failure.

(** C8, as the code has it: a failed result has no citations, no DOIs and an
    error message.  Where no conversion of an entry number raises,
    [extract_citations] fails exactly when the document could not be
    obtained (missing source, unreadable content, no text).  A document with
    text in which no reference section is located and no DOI is found yields
    a successful result without DOIs, in which no entry carries a DOI; its
    citations are empty when, besides, no numbering convention has more than
    three matches in it. *)
Theorem extract_citations_success_and_failure
    (name : pystr) (pdf : Extractor.pdf_outcome) :
  let r := Extractor.extract_citations_raising name pdf in
  (Extractor.success r = false →
     Extractor.citations r = [] ∧ Extractor.dois_found r = []
     ∧ is_Some (Extractor.error r))
  ∧ (¬ Spec.conversion_raises pdf →
     (Extractor.success r = false ↔ Spec.acquisition_failed pdf))
  ∧ (∀ full_text pages,
       pdf = Extractor.Extracted full_text pages → full_text ≠ [] →
       Extractor.find_references_section full_text = None →
       Extractor.extract_dois full_text = [] →
       (¬ Spec.conversion_raises pdf →
          Extractor.success r = true ∧ Extractor.dois_found r = []
          ∧ Extractor.error r = None
          ∧ ∀ c, c ∈ Extractor.citations r → Extractor.doi c = None)
       ∧ ((∀ p, p ∈ Extractor.patterns →
                length (Re.finditer Extractor.CITATION_FLAGS p full_text) ≤ 3) →
          Extractor.success r = true ∧ Extractor.citations r = []
          ∧ Extractor.dois_found r = [] ∧ Extractor.error r = None)).
Proof.
  intros r. subst r. split; [apply failed_result_is_empty|]. split.
  - intros Hno. rewrite extract_citations_raising_agrees by done.
    destruct pdf as [[|c s] pages | msg | msg];
      cbn [Extractor.extract_citations Extractor.success Spec.acquisition_failed];
      split; done.
  - intros full_text pages -> Hne Hsec Hdois.
    assert (Extractor.reference_text full_text = full_text) as Href.
    { unfold Extractor.reference_text. by rewrite Hsec. }
    destruct full_text as [|c s]; [done|]. split.
    + intros Hno. rewrite extract_citations_raising_agrees by done.
      cbn [Extractor.extract_citations Extractor.success Extractor.citations
           Extractor.dois_found Extractor.error].
      rewrite Href, Hdois. split; [done|]. split; [done|]. split; [done|].
      intros x Hx.
      destruct (Extractor.parse_numbered_citations (c :: s)) as [|e l].
      * by apply elem_of_nil in Hx.
      * apply list_elem_of_fmap in Hx as ([num body] & -> & _). done.
    + intros Hbelow.
      cbn [Extractor.extract_citations_raising].
      unfold Extractor.parse_numbered_citations_raising.
      rewrite Href, pattern_loop_raising_below by done.
      cbn [Extractor.success Extractor.citations Extractor.dois_found
           Extractor.error].
      by rewrite Hdois.
Qed.

Lemma extract_citations_success_and_failure_witness :
  Extractor.success
    (Extractor.extract_citations_raising []
       (Extractor.Extracted Sample.plain_document 1)) = true
  ∧ Extractor.citations
      (Extractor.extract_citations_raising []
         (Extractor.Extracted Sample.plain_document 1)) = []
  ∧ Extractor.dois_found
      (Extractor.extract_citations_raising []
         (Extractor.Extracted Sample.plain_document 1)) = []
  ∧ Extractor.error
      (Extractor.extract_citations_raising []
         (Extractor.Extracted Sample.plain_document 1)) = None.
Proof.
  refine (proj2 (proj2 (proj2 (extract_citations_success_and_failure
                                 [] (Extractor.Extracted Sample.plain_document 1)))
                  Sample.plain_document 1 eq_refl _ _ _) _).
  - vm_compute. discriminate.
  - vm_compute. reflexivity.
  - vm_compute. reflexivity.
  - intros p Hp. vm_compute in Hp.
    repeat (apply elem_of_cons in Hp as [->|Hp]; [vm_compute; lia|]).
    apply elem_of_nil in Hp. destruct Hp.
Defined.

(** C8 as stated fails: in running text with four parenthesized asides no
    reference section is located and no DOI is found, and yet the successful
    result has four citations. *)
Lemma no_section_no_doi_yet_four_citations :
  Extractor.find_references_section Sample.parenthesized_asides = None
  ∧ Extractor.extract_dois Sample.parenthesized_asides = []
  ∧ Extractor.success
      (Extractor.extract_citations_raising []
         (Extractor.Extracted Sample.parenthesized_asides 1)) = true
  ∧ Extractor.dois_found
      (Extractor.extract_citations_raising []
         (Extractor.Extracted Sample.parenthesized_asides 1)) = []
  ∧ Extractor.number <$>
      Extractor.citations
        (Extractor.extract_citations_raising []
           (Extractor.Extracted Sample.parenthesized_asides 1)) = [1; 2; 3; 4]%Z
  ∧ Extractor.citations
      (Extractor.extract_citations_raising []
         (Extractor.Extracted Sample.parenthesized_asides 1)) ≠ [].
Proof.
  split; [vm_compute; reflexivity|]. split; [vm_compute; reflexivity|].
  split; [vm_compute; reflexivity|]. split; [vm_compute; reflexivity|].
  split; [vm_compute; reflexivity|]. vm_compute. discriminate.
Qed.

(** An entry number of 4301 digits makes [int] raise: the text was obtained,
    and the result is a failure all the same, with the message of the
    exception after "PDF extraction failed: ". *)
Example long_entry_number_fails_the_extraction :
  ¬ Spec.acquisition_failed (Extractor.Extracted Sample.long_number_document 1)
  ∧ Extractor.success
      (Extractor.extract_citations_raising []
         (Extractor.Extracted Sample.long_number_document 1)) = false
  ∧ Extractor.error
      (Extractor.extract_citations_raising []
         (Extractor.Extracted Sample.long_number_document 1))
    = Some (str "PDF extraction failed: Exceeds the limit (4300 digits) for integer string conversion: value has 4301 digits; use sys.set_int_max_str_digits() to increase the limit").
Proof.
  split; [vm_compute; discriminate|].
  split; vm_compute; reflexivity.
Qed.

(** ** Association before truncation *)

(** C10: on the segmented path the DOI of an entry is looked up in the whole
    trimmed body while the reported text is its first 500 characters; so an
    entry can carry a DOI that does not occur in its reported text, as the
    entry of a body citing its DOI after 500 characters does. *)
Theorem doi_association_precedes_truncation
    (name full_text : pystr) (pages i : nat) (num : Z) (body : pystr) :
  full_text ≠ [] →
  Extractor.parse_numbered_citations (Extractor.reference_text full_text) !! i
    = Some (num, body) →
  let all_dois := Extractor.extract_dois (Extractor.reference_text full_text) in
  (∃ c, Extractor.citations
          (Extractor.extract_citations name (Extractor.Extracted full_text pages)) !! i
        = Some c
      ∧ Extractor.text c = take 500 body
      ∧ Extractor.doi c = Extractor.doi_loop all_dois body
      ∧ ∀ d pre post,
          all_dois = [d] → lower body = pre ++ lower d ++ post →
          500 ≤ length pre → str_in (lower d) pre = false →
          Extractor.doi c = Some d
          ∧ str_in (lower d) (lower (Extractor.text c)) = false).
Proof.
  intros Hne Hi all_dois.
  exists (Extractor.from_parsed all_dois (num, body)). split.
  { rewrite citations_segmented; [|done|].
    - by rewrite list_lookup_fmap, Hi.
    - intros Hnil. by rewrite Hnil in Hi. }
  split; [done|]. split; [done|].
  intros d pre post Hd Hbody Hpre Hnot.
  cbn [Extractor.from_parsed Extractor.doi Extractor.text]. split.
  - apply doi_loop_Some. exists [], []. split; [by rewrite Hd|]. split.
    + by exists pre, post.
    + intros d' Hd'. by apply elem_of_nil in Hd'.
  - destruct (str_in (lower d) (lower (take 500 body))) eqn:Hin; [|done].
    apply str_in_infix in Hin as (a & b & Hin).
    assert (str_in (lower d) pre = true) as Hyes; [|congruence].
    apply str_in_infix. exists a, (b ++ drop 500 pre).
    rewrite <- (take_drop 500 pre) at 1.
    replace (take 500 pre) with (lower (take 500 body)).
    + rewrite Hin. by rewrite <- !app_assoc.
    + unfold lower in *. rewrite fmap_take, Hbody. by apply take_app_le.
Qed.

Lemma doi_association_precedes_truncation_witness :
  ∃ c, Extractor.citations
         (Extractor.extract_citations []
            (Extractor.Extracted Sample.late_doi_document 1)) !! 0 = Some c
     ∧ length (Extractor.text c) = 500
     ∧ Extractor.doi c = Some (str "10.1000/xyz123")
     ∧ str_in (lower (str "10.1000/xyz123")) (lower (Extractor.text c)) = false.
Proof.
  destruct (doi_association_precedes_truncation
              [] Sample.late_doi_document 1 0 1%Z
              (replicate 500 (Extractor.ch "a") ++ str " 10.1000/xyz123"))
    as (c & Hc & Htext & _ & Hlate).
  - vm_compute. discriminate.
  - vm_compute. reflexivity.
  - destruct (Hlate (str "10.1000/xyz123")
                (replicate 500 (Extractor.ch "a") ++ str " ") [])
      as [Hdoi Habsent].
    + vm_compute. reflexivity.
    + vm_compute. reflexivity.
    + vm_compute. lia.
    + vm_compute. reflexivity.
    + exists c. split; [exact Hc|]. split; [|split].
      * rewrite Htext. vm_compute. reflexivity.
      * exact Hdoi.
      * exact Habsent.
Defined.

(** ** The Numbered-Entry Segmenter *)

Section segmenter.
Import Re Spec Extractor.

Lemma collect_loop text ms acc :
  foldl (collect text) acc ms = acc ++ entries text ms.
Proof.
  revert acc. induction ms as [|m ms IH]; intros acc.
  { simpl. by rewrite app_nil_r. }
  cbn [foldl]. rewrite IH. unfold entries, collect.
  rewrite fmap_cons, filter_cons. cbn [entry snd].
  destruct (decide (20 < length (strip (group text m 2)))) as [Hlen|Hlen].
  - rewrite (proj2 (Nat.ltb_lt _ _) Hlen). by rewrite <- app_assoc.
  - rewrite (proj2 (Nat.ltb_ge _ _)) by lia. done.
Qed.

Lemma pattern_loop_skip p later text :
  length (finditer CITATION_FLAGS p text) ≤ 3 →
  pattern_loop (p :: later) text [] = pattern_loop later text [].
Proof.
  intros Hlen. cbn [pattern_loop].
  rewrite (proj2 (Nat.ltb_ge _ _)) by lia. by rewrite andb_false_r.
Qed.

Lemma pattern_loop_accept p later text :
  3 < length (finditer CITATION_FLAGS p text) →
  pattern_loop (p :: later) text [] =
  entries text (finditer CITATION_FLAGS p text).
Proof.
  intros Hlen. cbn [pattern_loop].
  rewrite (proj2 (Nat.ltb_lt _ _) Hlen).
  destruct (finditer CITATION_FLAGS p text) as [|m ms] eqn:Hms.
  { simpl in Hlen. lia. }
  rewrite bool_decide_eq_false_2 by done. cbn [negb andb].
  by rewrite collect_loop.
Qed.

Lemma pattern_loop_earlier earlier rest text :
  (∀ q, q ∈ earlier → length (finditer CITATION_FLAGS q text) ≤ 3) →
  pattern_loop (earlier ++ rest) text [] = pattern_loop rest text [].
Proof.
  induction earlier as [|q earlier IH]; intros Hall; [done|].
  rewrite <- app_comm_cons, pattern_loop_skip.
  - apply IH. intros q' Hq'. apply Hall. by right.
  - apply Hall. left.
Qed.

Lemma elem_of_entries text ms e :
  e ∈ entries text ms ↔ ∃ m, m ∈ ms ∧ e = entry text m ∧ 20 < length e.2.
Proof.
  unfold entries. rewrite list_elem_of_filter, list_elem_of_fmap. split.
  - intros [Hlen (m & -> & Hm)]. by exists m.
  - intros (m & Hm & -> & Hlen). split; [done|]. by exists m.
Qed.

Lemma length_entries text ms : length (entries text ms) ≤ length ms.
Proof.
  unfold entries. etrans; [apply length_filter|]. by rewrite length_fmap.
Qed.

End segmenter.

(** C2: a numbering convention that no earlier convention pre-empts is
    accepted exactly when it has more than three raw matches: with three or
    fewer the segmenter goes on to the later conventions (and returns nothing
    when none is left), with four or more it returns the entries of that
    convention.  The entries are the matches whose trimmed body has more than
    20 characters: the others are left out, and were counted all the same. *)
Theorem segmenter_accepts_above_three_matches
    (text : pystr) (earlier : list Re.regex) (p : Re.regex) (later : list Re.regex) :
  Extractor.patterns = earlier ++ p :: later →
  (∀ q, q ∈ earlier → length (Re.finditer Extractor.CITATION_FLAGS q text) ≤ 3) →
  let found := Re.finditer Extractor.CITATION_FLAGS p text in
  (length found ≤ 3 →
     Extractor.parse_numbered_citations text = Extractor.pattern_loop later text []
     ∧ (later = [] → Extractor.parse_numbered_citations text = []))
  ∧ (3 < length found →
     Extractor.parse_numbered_citations text = Spec.entries text found)
  ∧ (∀ e, e ∈ Spec.entries text found ↔
          ∃ m, m ∈ found ∧ e = Spec.entry text m ∧ 20 < length e.2)
  ∧ length (Spec.entries text found) ≤ length found.
Proof.
  intros Hpats Hearlier found.
  assert (Extractor.parse_numbered_citations text =
          Extractor.pattern_loop (p :: later) text []) as Hparse.
  { unfold Extractor.parse_numbered_citations. rewrite Hpats.
    by apply pattern_loop_earlier. }
  split; [|split; [|split]].
  - intros Hlen. rewrite Hparse, pattern_loop_skip by done.
    split; [done|]. by intros ->.
  - intros Hlen. rewrite Hparse. by apply pattern_loop_accept.
  - intros e. apply elem_of_entries.
  - apply length_entries.
Qed.

Lemma segmenter_accepts_above_three_matches_witness :
  length (Re.finditer Extractor.CITATION_FLAGS Extractor.bracketed
            Sample.four_one_short) = 4
  ∧ Extractor.parse_numbered_citations Sample.four_one_short =
    Spec.entries Sample.four_one_short
      (Re.finditer Extractor.CITATION_FLAGS Extractor.bracketed Sample.four_one_short)
  ∧ length (Extractor.parse_numbered_citations Sample.four_one_short) = 3.
Proof.
  split; [vm_compute; reflexivity|]. split; [|vm_compute; reflexivity].
  refine (proj1 (proj2 (segmenter_accepts_above_three_matches
                          Sample.four_one_short []
                          Extractor.bracketed
                          [Extractor.dotted; Extractor.parenthesized]
                          eq_refl _)) _).
  - intros q Hq. apply elem_of_nil in Hq. destruct Hq.
  - vm_compute. lia.
Defined.

(** Three bracketed entries are not segmented, four are; a short body is
    left out of the entries of an accepted convention. *)
Example three_bracketed_not_segmented :
  length (Re.finditer Extractor.CITATION_FLAGS Extractor.bracketed
            Sample.three_bracketed) = 3
  ∧ Extractor.parse_numbered_citations Sample.three_bracketed = [].
Proof. split; vm_compute; reflexivity. Qed.

Example four_bracketed_segmented :
  length (Re.finditer Extractor.CITATION_FLAGS Extractor.bracketed
            Sample.four_bracketed) = 4
  ∧ fst <$> Extractor.parse_numbered_citations Sample.four_bracketed
    = [1; 2; 3; 4]%Z.
Proof. split; vm_compute; reflexivity. Qed.

Example short_body_counted_but_left_out :
  fst <$> Extractor.parse_numbered_citations Sample.four_one_short = [1; 2; 4]%Z.
Proof. vm_compute. reflexivity. Qed.

(** ** Normalization on the verification path *)

Section verifier_clean.
Import Spec Verifier.

Lemma replace_encoded t :
  replace PERCENT_2F SLASH (PERCENT_2F ++ t) = SLASH ++ replace PERCENT_2F SLASH t.
Proof. reflexivity. Qed.

Lemma replace_other c t :
  startswith PERCENT_2F (c :: t) = false →
  replace PERCENT_2F SLASH (c :: t) = c :: replace PERCENT_2F SLASH t.
Proof. intros H. unfold replace. cbn [replace_from]. by rewrite H. Qed.

(** Induction along the way [replace] reads its argument. *)
Lemma replace_ind (P : pystr → pystr → Prop) :
  P [] [] →
  (∀ t, P t (replace PERCENT_2F SLASH t) →
        P (PERCENT_2F ++ t) (SLASH ++ replace PERCENT_2F SLASH t)) →
  (∀ c t, startswith PERCENT_2F (c :: t) = false →
          P t (replace PERCENT_2F SLASH t) →
          P (c :: t) (c :: replace PERCENT_2F SLASH t)) →
  ∀ s, P s (replace PERCENT_2F SLASH s).
Proof.
  intros Hnil Henc Hother s.
  induction s as [s IH] using (induction_ltof1 _ length). unfold ltof in IH.
  destruct (startswith PERCENT_2F s) eqn:Hstart.
  - apply startswith_prefix in Hstart as [t' ->].
    rewrite replace_encoded. apply Henc, IH.
    rewrite length_app. cbn. lia.
  - destruct s as [|c t]; [exact Hnil|].
    rewrite replace_other by done. apply Hother; [done|].
    apply IH. simpl. lia.
Qed.

Lemma replace_prefix_without_slash s w :
  (∀ x, x ∈ w → [x] ≠ SLASH) →
  startswith w (replace PERCENT_2F SLASH s) = true → startswith w s = true.
Proof.
  revert w.
  apply (replace_ind (λ s r, ∀ w, (∀ x, x ∈ w → [x] ≠ SLASH) →
                              startswith w r = true → startswith w s = true)).
  - done.
  - intros t _ [|x w] Hw Hstart; [done|]. exfalso.
    cbn in Hstart. apply andb_true_iff in Hstart as [Hx _].
    apply bool_decide_eq_true in Hx. apply (Hw x); [left|]. by rewrite Hx.
  - intros c t _ IH [|x w] Hw Hstart; [done|].
    cbn in Hstart |- *. apply andb_true_iff in Hstart as [Hx Hrest].
    rewrite Hx. cbn. apply IH; [|done]. intros y Hy. apply Hw. by right.
Qed.

Lemma replace_leaves_none s :
  str_in PERCENT_2F (replace PERCENT_2F SLASH s) = false.
Proof.
  apply (replace_ind (λ _ r, str_in PERCENT_2F r = false)).
  - reflexivity.
  - intros t IH. change (SLASH ++ ?r) with (chr 47 :: r).
    cbn [str_in]. rewrite IH. reflexivity.
  - intros c t Hstart IH. cbn [str_in]. rewrite IH, orb_false_r.
    destruct (startswith PERCENT_2F (c :: replace PERCENT_2F SLASH t)) eqn:H;
      [|done].
    rewrite <- replace_other in H by done.
    apply replace_prefix_without_slash in H; [congruence|].
    intros x Hx. vm_compute in Hx.
    repeat (apply elem_of_cons in Hx as [->|Hx]; [discriminate|]).
    by apply elem_of_nil in Hx.
Qed.

Lemma replace_last s x :
  last (replace PERCENT_2F SLASH s) = Some x → [x] = SLASH ∨ last s = Some x.
Proof.
  revert x.
  apply (replace_ind (λ s r, ∀ x, last r = Some x → [x] = SLASH ∨ last s = Some x)).
  - done.
  - intros t IH x. change (SLASH ++ ?r) with (chr 47 :: r).
    destruct (replace PERCENT_2F SLASH t) as [|y r] eqn:Hr.
    + intros [= <-]. by left.
    + intros Hlast. destruct (IH x Hlast) as [?|Ht]; [by left|]. right.
      rewrite last_app, Ht. done.
  - intros c t _ IH x.
    destruct (replace PERCENT_2F SLASH t) as [|y r] eqn:Hr.
    + destruct t as [|c' t'].
      * intros [= <-]. by right.
      * exfalso. revert Hr.
        destruct (startswith PERCENT_2F (c' :: t')) eqn:Hs.
        -- apply startswith_prefix in Hs as [t'' ->]. by rewrite replace_encoded.
        -- by rewrite replace_other.
    + intros Hlast. destruct (IH x Hlast) as [?|Ht]; [by left|]. right.
      destruct t; [done|]. done.
Qed.

Lemma rstrip_last p s x : last (rstrip p s) = Some x → p x = false.
Proof.
  induction s as [|c s IH]; [done|]. cbn [rstrip].
  destruct (rstrip p s) as [|y t] eqn:Hr.
  - destruct (p c) eqn:Hc; [done|]. by intros [= <-].
  - intros Hlast. apply IH. by rewrite <- Hlast.
Qed.

Lemma prefix_loop_first l1 p l2 s rest :
  (∀ q, q ∈ l1 → ¬ q `prefix_of` s) → s = p ++ rest →
  prefix_loop (l1 ++ p :: l2) s = rest.
Proof.
  intros Hl1 ->. induction l1 as [|q l1 IH]; cbn [app prefix_loop].
  - rewrite (proj2 (startswith_prefix _ _)) by by exists rest.
    by rewrite drop_app_length.
  - destruct (startswith q (p ++ rest)) eqn:Hq.
    + apply startswith_prefix in Hq. exfalso. apply (Hl1 q); [left | done].
    + apply IH. intros q' Hq'. apply Hl1. by right.
Qed.

Lemma prefix_loop_none ps s :
  (∀ q, q ∈ ps → ¬ q `prefix_of` s) → prefix_loop ps s = s.
Proof.
  induction ps as [|q ps IH]; intros Hps; [done|]. cbn [prefix_loop].
  destruct (startswith q s) eqn:Hq.
  - apply startswith_prefix in Hq. exfalso. apply (Hps q); [left | done].
  - apply IH. intros q' Hq'. apply Hps. by right.
Qed.

End verifier_clean.

(** C6, as the code has it: the verifier's [clean_doi] trims the surrounding
    white space, cuts off the first prefix of its list that the string
    starts with (compared case-sensitively), strips the trailing characters
    of the set [. , ; : ) ] }] and decodes every [%2F] to [/].  The result
    ends in none of those seven characters and contains no [%2F]. *)
Theorem verifier_clean_doi_normalizes (doi : pystr) :
  let s := strip doi in
  let finish b := replace Spec.PERCENT_2F Spec.SLASH
                    (rstrip (one_of Verifier.TRAILING) b) in
  (∀ l1 p l2 rest,
     Verifier.prefixes = l1 ++ p :: l2 → s = p ++ rest →
     (∀ q, q ∈ l1 → ¬ q `prefix_of` s) →
     Verifier.clean_doi doi = finish rest)
  ∧ ((∀ q, q ∈ Verifier.prefixes → ¬ q `prefix_of` s) →
     Verifier.clean_doi doi = finish s)
  ∧ (∀ c, last (Verifier.clean_doi doi) = Some c → c ∉ Verifier.TRAILING)
  ∧ str_in Spec.PERCENT_2F (Verifier.clean_doi doi) = false.
Proof.
  intros s finish. split; [|split; [|split]].
  - intros l1 p l2 rest Hps Hs Hl1. unfold Verifier.clean_doi.
    rewrite Hps. fold s. by rewrite (prefix_loop_first l1 p l2 s rest).
  - intros Hnone. unfold Verifier.clean_doi. fold s.
    by rewrite prefix_loop_none.
  - intros c Hlast Hin. unfold Verifier.clean_doi in Hlast.
    apply replace_last in Hlast as [Hslash|Hlast].
    + injection Hslash as ->. vm_compute in Hin.
      repeat (apply elem_of_cons in Hin as [Hin|Hin]; [discriminate|]).
      by apply elem_of_nil in Hin.
    + apply rstrip_last in Hlast. unfold one_of in Hlast.
      by apply bool_decide_eq_false in Hlast.
  - apply replace_leaves_none.
Qed.

Lemma verifier_clean_doi_normalizes_witness :
  Verifier.clean_doi (str " https://doi.org/10.1038%2Fnature12373.) ")
  = str "10.1038/nature12373".
Proof.
  refine (eq_trans
            (proj1 (verifier_clean_doi_normalizes
                      (str " https://doi.org/10.1038%2Fnature12373.) "))
               [] (str "https://doi.org/") (tail Verifier.prefixes)
               (str "10.1038%2Fnature12373.)") eq_refl _ _) _).
  - vm_compute. reflexivity.
  - intros q Hq. apply elem_of_nil in Hq. destruct Hq.
  - vm_compute. reflexivity.
Defined.

(** C6 as stated fails for the verifier's [clean_doi]: a trailing quote and
    an HTML entity stay, while the extractor's [clean_doi] removes both. *)
Lemma verifier_clean_doi_keeps_quote_and_entity :
  Verifier.clean_doi (str "10.1000/xyz123'") = str "10.1000/xyz123'"
  ∧ Extractor.clean_doi (str "10.1000/xyz123'") = str "10.1000/xyz123"
  ∧ Verifier.clean_doi (str "10.1000/xy&amp;z123") = str "10.1000/xy&amp;z123"
  ∧ Extractor.clean_doi (str "10.1000/xy&amp;z123") = str "10.1000/xyz123".
Proof. repeat split; vm_compute; reflexivity. Qed.

(** ** Rejection of malformed DOIs before the lookup *)

Lemma verify_doi_well_formed doi :
  Verifier.clean_doi doi ≠ [] →
  Verifier.shape_ok (Verifier.clean_doi doi) = true →
  Verifier.requests (Verifier.verify_doi doi)
  = [Verifier.CROSSREF_API_BASE ++ Verifier.clean_doi doi].
Proof.
  intros Hne Hshape. unfold Verifier.verify_doi. rewrite Hshape.
  by destruct (Verifier.clean_doi doi).
Qed.

(** C9: when the cleaned DOI is empty or fails the shape check, [verify_doi]
    returns without sending a request; the result is invalid, keeps the
    input as its DOI, and its error names the format, not a missing registry
    entry, whatever the registry would have answered. *)
Theorem verify_doi_rejects_malformed_before_lookup (doi : pystr) :
  Verifier.clean_doi doi = [] ∨ Verifier.shape_ok (Verifier.clean_doi doi) = false →
  ∃ r, Verifier.verify_doi doi = Verifier.Return r
     ∧ Verifier.requests (Verifier.verify_doi doi) = []
     ∧ (∀ net, Verifier.result net (Verifier.verify_doi doi) = r)
     ∧ Verifier.valid r = false
     ∧ Verifier.doi r = doi
     ∧ (Verifier.error r = Some (str "Empty or invalid DOI format")
        ∨ Verifier.error r
          = Some (str "Invalid DOI format: " ++ Verifier.clean_doi doi))
     ∧ Verifier.error r ≠ Some (str "DOI not found in CrossRef").
Proof.
  intros Hbad. unfold Verifier.verify_doi.
  destruct (Verifier.clean_doi doi) as [|c s] eqn:Hclean.
  - eexists. split; [reflexivity|]. repeat split; [by left|].
    cbn. intros [=].
  - destruct Hbad as [Hbad|Hbad]; [done|]. rewrite Hbad. cbn [negb].
    eexists. split; [reflexivity|]. repeat split; [by right|].
    cbn. intros [=].
Qed.

Lemma verify_doi_rejects_malformed_before_lookup_witness :
  ∃ r, Verifier.verify_doi (str "doi:11.1234/abc") = Verifier.Return r
     ∧ Verifier.requests (Verifier.verify_doi (str "doi:11.1234/abc")) = []
     ∧ Verifier.valid r = false
     ∧ Verifier.error r = Some (str "Invalid DOI format: 11.1234/abc").
Proof.
  destruct (verify_doi_rejects_malformed_before_lookup (str "doi:11.1234/abc"))
    as (r & Hr & Hreq & _ & Hvalid & _ & Herr & _).
  - right. vm_compute. reflexivity.
  - exists r. split; [exact Hr|]. split; [exact Hreq|]. split; [exact Hvalid|].
    destruct Herr as [Herr|Herr]; [|exact Herr].
    exfalso. rewrite Hr in *. vm_compute in Hr.
    injection Hr as <-. vm_compute in Herr. discriminate Herr.
Defined.

(** ** Binary64 product with [0.6] *)

Section float.
Local Open Scope Z_scope.

Lemma round_shift_near p e :
  0 < e → 0 ≤ p →
  2 * p - 2 ^ e ≤ 2 * (Float.round_shift p e * 2 ^ e) ≤ 2 * p + 2 ^ e.
Proof.
  intros He Hp. unfold Float.round_shift.
  assert (2 ^ e = 2 * 2 ^ (e - 1)) as HE.
  { rewrite <- Z.pow_succ_r by lia. f_equal. lia. }
  assert (0 < 2 ^ (e - 1)) as Hh by (apply Z.pow_pos_nonneg; lia).
  pose proof (Z.div_mod p (2 ^ e) ltac:(lia)) as Hdm.
  pose proof (Z.mod_pos_bound p (2 ^ e) ltac:(lia)) as Hm.
  set (E := 2 ^ e) in *. set (h := 2 ^ (e - 1)) in *.
  set (d := p / E) in *. set (r := p mod E) in *.
  destruct (Z.ltb_spec r h); [nia|].
  destruct (Z.ltb_spec h r); [nia|].
  destruct (Z.even d); nia.
Qed.

Lemma round_shift_up p e a j :
  0 < e → p = a * 2 ^ e - j → 0 < j → 2 * j < 2 ^ e →
  Float.round_shift p e = a.
Proof.
  intros He -> Hj Hj2. unfold Float.round_shift.
  assert (2 ^ e = 2 * 2 ^ (e - 1)) as HE.
  { rewrite <- Z.pow_succ_r by lia. f_equal. lia. }
  assert (0 < 2 ^ (e - 1)) as Hh by (apply Z.pow_pos_nonneg; lia).
  set (E := 2 ^ e) in *. set (h := 2 ^ (e - 1)) in *.
  assert ((a * E - j) / E = a - 1) as Hd.
  { symmetry. apply (Z.div_unique _ _ _ (E - j)); lia. }
  assert ((a * E - j) mod E = E - j) as Hr.
  { symmetry. apply (Z.mod_unique _ _ (a - 1)); lia. }
  rewrite Hd, Hr.
  destruct (Z.ltb_spec (E - j) h); [lia|].
  destruct (Z.ltb_spec h (E - j)); lia.
Qed.

(** For the line counts of any text that fits a memory, [int(n * 0.6)] is
    the integer part of [3n/5]: the double nearest to [0.6] is
    [(3 * 2^53 - 1) / (5 * 2^53)], and the rounding of the product never
    crosses an integer. *)
Lemma int_mul_0_6_floor n :
  0 ≤ n < 2 ^ 50 → Float.int_mul_0_6 n = 3 * n / 5.
Proof.
  intros Hn. unfold Float.int_mul_0_6, Float.mantissa_0_6.
  set (M := 5404319552844595). set (p := n * M).
  assert (5 * M = 3 * 2 ^ 53 - 1) as HM by reflexivity.
  assert (2 ^ 53 = 9007199254740992) as H53 by reflexivity.
  assert (2 ^ 50 = 1125899906842624) as H50 by reflexivity.
  pose proof (Z.div_mod (3 * n) 5 ltac:(lia)) as Hdm.
  pose proof (Z.mod_pos_bound (3 * n) 5 ltac:(lia)) as Hrho.
  set (N := 3 * n / 5) in *. set (rho := (3 * n) mod 5) in *.
  destruct (Z.leb_spec (Z.log2 p - 52) 0) as [He|He].
  - (* no rounding: p < 2^53, so n ≤ 1 *)
    assert (p < 2 ^ 53) as Hp.
    { destruct (Z.eq_dec p 0) as [->|Hp0]; [lia|].
      apply Z.log2_lt_pow2; lia. }
    assert (n ≤ 1) by (subst p; lia).
    assert (N = 0) by lia.
    rewrite Z.div_small; lia.
  - assert (0 < p) as Hp.
    { destruct (Z.lt_ge_cases 0 p) as [?|Hle]; [done|].
      rewrite (Z.log2_nonpos p) in He by lia. lia. }
    set (e := Z.log2 p - 52) in *.
    pose proof (Z.log2_spec p Hp) as [Hlo Hhi].
    assert (Z.log2 p = e + 52) as Hk by lia.
    rewrite Hk in Hlo. replace (Z.succ (Z.log2 p)) with (e + 53) in Hhi by lia.
    rewrite Z.pow_add_r in Hlo, Hhi by lia.
    assert (0 < 2 ^ e) as HE by (apply Z.pow_pos_nonneg; lia).
    pose proof (round_shift_near p e He ltac:(lia)) as Hnear.
    set (E := 2 ^ e) in *.
    assert (2 ^ 52 = 4503599627370496) as H52 by reflexivity.
    symmetry. apply Z.div_unique with (r := Float.round_shift p e * E - N * 2 ^ 53).
    2: lia.
    left. split.
    + destruct (Z.eq_dec rho 0) as [Hrho0|Hrho0].
      * (* 3n = 5N: the product rounds up to N exactly *)
        assert (e ≤ 53) as He53.
        { destruct (Z.le_gt_cases e 53) as [?|Hgt]; [done|]. exfalso.
          assert (2 ^ 54 ≤ E).
          { unfold E. apply Z.pow_le_mono_r; lia. }
          assert (2 ^ 54 = 18014398509481984) by reflexivity. subst p. nia. }
        assert (2 ^ 53 = E * 2 ^ (53 - e)) as Hsplit.
        { unfold E. rewrite <- Z.pow_add_r by lia. f_equal. lia. }
        assert (0 < 2 ^ (53 - e)) by (apply Z.pow_pos_nonneg; lia).
        set (F := 2 ^ (53 - e)) in *.
        assert (∃ j, n = 5 * j) as [j Hj] by (exists (2 * N - n); lia).
        assert (N = 3 * j) by lia.
        assert (p = N * F * E - j) as Hpj by (subst p; nia).
        rewrite (round_shift_up p e (N * F) j); [nia | done | done | | ].
        -- subst p. nia.
        -- fold E. subst p. nia.
      * subst p. nia.
    + subst p. nia.
Qed.

End float.

Lemma tail_start_floor (n : nat) :
  (Z.of_nat n < 2 ^ 50)%Z →
  Z.to_nat (Float.int_mul_0_6 (Z.of_nat n)) = 3 * n / 5.
Proof.
  intros Hn. rewrite int_mul_0_6_floor by lia.
  rewrite <- (Nat2Z.id (3 * n / 5)). f_equal.
  rewrite Nat2Z.inj_div, Nat2Z.inj_mul. done.
Qed.

(** ** Leftmost search *)

Section search.
Import Re Spec.

Lemma cursor_at_app pre s :
  cursor_at (pre ++ s) (length pre) = Cursor (last pre) (length pre) s [].
Proof. unfold cursor_at. by rewrite take_app_length, drop_app_length. Qed.

Lemma match_here_start f r c m : match_here f r c = Some m → m_start m = pos c.
Proof.
  unfold match_here. destruct (run f r c Some); [|done]. by intros [= <-].
Qed.

Lemma search_from_leftmost f r s pre :
  match search_from f r (last pre) (length pre) s with
  | Some m =>
      ∃ q, length pre ≤ q ≤ length (pre ++ s)
         ∧ match_here f r (cursor_at (pre ++ s) q) = Some m
         ∧ ∀ q', length pre ≤ q' < q →
                 match_here f r (cursor_at (pre ++ s) q') = None
  | None =>
      ∀ q', length pre ≤ q' ≤ length (pre ++ s) →
            match_here f r (cursor_at (pre ++ s) q') = None
  end.
Proof.
  revert pre. induction s as [|x s IH]; intros pre.
  - cbn [search_from]. rewrite <- cursor_at_app.
    destruct (match_here f r (cursor_at (pre ++ []) (length pre))) as [m|] eqn:Hm.
    + exists (length pre). rewrite length_app. simpl.
      split; [lia|]. split; [done|]. intros q' ?. lia.
    + intros q'. rewrite length_app. simpl. intros ?.
      by replace q' with (length pre) by lia.
  - cbn [search_from]. rewrite <- cursor_at_app.
    destruct (match_here f r (cursor_at (pre ++ x :: s) (length pre)))
      as [m|] eqn:Hm.
    + exists (length pre). rewrite length_app. simpl.
      split; [lia|]. split; [done|]. intros q' ?. lia.
    + specialize (IH (pre ++ [x])).
      rewrite last_snoc, length_app, <- app_assoc in IH. simpl in IH.
      replace (length pre + 1) with (S (length pre)) in IH by lia.
      destruct (search_from f r (Some x) (S (length pre)) s) as [m|].
      * destruct IH as (q & Hq & Hmatch & Hnone). exists q.
        split; [lia|]. split; [done|]. intros q' Hq'.
        destruct (decide (q' = length pre)) as [->|]; [done|].
        apply Hnone. lia.
      * intros q' Hq'.
        destruct (decide (q' = length pre)) as [->|]; [done|].
        apply IH. lia.
Qed.

Lemma search_leftmost f r text m :
  search f r text = Some m →
  matches_at f r text (m_start m)
  ∧ match_here f r (cursor_at text (m_start m)) = Some m
  ∧ ∀ q, q < m_start m → ¬ matches_at f r text q.
Proof.
  intros Hsearch. pose proof (search_from_leftmost f r text []) as H.
  simpl in H. unfold search in Hsearch. rewrite Hsearch in H.
  destruct H as (q & Hq & Hmatch & Hnone).
  rewrite (match_here_start _ _ _ _ Hmatch). cbn [cursor_at pos].
  split; [|split].
  - split; [lia|]. by rewrite Hmatch.
  - done.
  - intros q' Hq' [_ Hsome]. rewrite Hnone in Hsome by lia.
    by destruct Hsome.
Qed.

Lemma search_None f r text :
  search f r text = None ↔ ∀ q, ¬ matches_at f r text q.
Proof.
  split.
  - intros Hsearch q [Hq Hsome].
    pose proof (search_from_leftmost f r text []) as H.
    simpl in H. unfold search in Hsearch. rewrite Hsearch in H.
    rewrite H in Hsome by lia. by destruct Hsome.
  - intros Hnone. destruct (search f r text) as [m|] eqn:Hsearch; [|done].
    apply search_leftmost in Hsearch as [Hm _]. by apply Hnone in Hm.
Qed.

End search.

(** ** The Reference-Section Locator *)

Section locator.
Import Re Spec Extractor.

Lemma header_loop_first l1 h l2 text m :
  (∀ h', h' ∈ l1 → search HEADER_FLAGS h' text = None) →
  search HEADER_FLAGS h text = Some m →
  header_loop (l1 ++ h :: l2) text
  = Some (trim_at_end end_patterns (drop (m_start m) text)).
Proof.
  intros Hl1 Hh. induction l1 as [|h' l1 IH]; cbn [app header_loop].
  - by rewrite Hh.
  - rewrite (Hl1 h') by left. apply IH. intros h'' Hin. apply Hl1. by right.
Qed.

Lemma header_loop_None hs text :
  (∀ h, h ∈ hs → search HEADER_FLAGS h text = None) →
  header_loop hs text = None.
Proof.
  induction hs as [|h hs IH]; intros Hall; [done|]. cbn [header_loop].
  rewrite (Hall h) by left. apply IH. intros h' Hin. apply Hall. by right.
Qed.

Lemma trim_at_end_prefix pats s : trim_at_end pats s `prefix_of` s.
Proof.
  induction pats as [|p pats IH]; cbn [trim_at_end]; [done|].
  destruct (search HEADER_FLAGS p s); [apply prefix_take | done].
Qed.

End locator.

(** C1, as the code has it: the headers are tried in the order of
    [REFERENCE_HEADERS], and the first header of the list that occurs in the
    text decides: the span starts at the leftmost match of that header (and
    runs to the end marker or the end of the text), wherever the later
    headers of the list occur. *)
Theorem locator_takes_first_header_of_the_list
    (text : pystr) (l1 : list Re.regex) (h : Re.regex) (l2 : list Re.regex)
    (q0 : nat) :
  Extractor.REFERENCE_HEADERS = l1 ++ h :: l2 →
  (∀ h' q, h' ∈ l1 → ¬ Spec.matches_at Extractor.HEADER_FLAGS h' text q) →
  Spec.matches_at Extractor.HEADER_FLAGS h text q0 →
  ∃ p span,
    Extractor.find_references_section text = Some span
    ∧ span = Extractor.trim_at_end Extractor.end_patterns (drop p text)
    ∧ span `prefix_of` drop p text
    ∧ p ≤ q0
    ∧ Spec.matches_at Extractor.HEADER_FLAGS h text p
    ∧ ∀ q, q < p → ¬ Spec.matches_at Extractor.HEADER_FLAGS h text q.
Proof.
  intros Hlist Hearlier Hh.
  destruct (Re.search Extractor.HEADER_FLAGS h text) as [m|] eqn:Hsearch.
  2: { exfalso. by apply (proj1 (search_None _ _ _) Hsearch q0). }
  exists (Re.m_start m). eexists. split; [|split; [reflexivity|]].
  - unfold Extractor.find_references_section.
    rewrite Hlist, (header_loop_first l1 h l2 text m); [done| |done].
    intros h' Hh'. apply search_None. intros q. by apply Hearlier.
  - split; [apply trim_at_end_prefix|].
    apply search_leftmost in Hsearch as (Hm & _ & Hleft).
    split; [|done].
    destruct (decide (Re.m_start m ≤ q0)) as [|Hgt]; [done|].
    exfalso. apply (Hleft q0); [lia | done].
Qed.

Lemma locator_takes_first_header_of_the_list_witness :
  ∃ p span,
    Extractor.find_references_section Sample.bibliography_first = Some span
    ∧ span = Extractor.trim_at_end Extractor.end_patterns
               (drop p Sample.bibliography_first)
    ∧ span = str "references are available on request.".
Proof.
  destruct (locator_takes_first_header_of_the_list
              Sample.bibliography_first []
              (Re.seq [Re.WordB; Re.lit "References"; Re.WordB])
              (tail Extractor.REFERENCE_HEADERS) 72)
    as (p & span & Hspan & Heq & _).
  - reflexivity.
  - intros h' q Hh'. apply elem_of_nil in Hh'. destruct Hh'.
  - split; [vm_compute; lia|]. vm_compute. eexists. reflexivity.
  - exists p, span. split; [exact Hspan|]. split; [exact Heq|].
    assert (Some span = Some (str "references are available on request.")) as H.
    { rewrite <- Hspan. vm_compute. reflexivity. }
    injection H as H. exact H.
Defined.

(** C1 as stated fails: in a text that has "Bibliography" at its beginning
    and "references" further down, the earliest match of a header is at
    index 0, and the span returned starts at index 72. *)
Lemma locator_skips_earlier_bibliography_header :
  Spec.earliest_header_start Sample.bibliography_first = Some 0
  ∧ Extractor.find_references_section Sample.bibliography_first
    = Some (drop 72 Sample.bibliography_first)
  ∧ Extractor.find_references_section Sample.bibliography_first
    ≠ Some (Extractor.trim_at_end Extractor.end_patterns
              (drop 0 Sample.bibliography_first)).
Proof.
  split; [vm_compute; reflexivity|]. split; [vm_compute; reflexivity|].
  vm_compute. discriminate.
Qed.

(** C5, as the code has it: without a header and with more than 50 lines,
    the candidate tail is made of the lines from index [3n/5] (rounded down)
    on, [n] being the number of lines; it has [n - 3n/5] lines, which is 40%
    of [n] rounded up (21 lines of 51).  The tail is returned exactly when
    the DOI pattern matches somewhere in it. *)
Theorem fallback_tail_starts_at_three_fifths (text : pystr) :
  (∀ h q, h ∈ Extractor.REFERENCE_HEADERS →
          ¬ Spec.matches_at Extractor.HEADER_FLAGS h text q) →
  50 < length (split_lines text) →
  (Z.of_nat (length (split_lines text)) < 2 ^ 50)%Z →
  let lines := split_lines text in
  let n := length lines in
  let tail := drop (3 * n / 5) lines in
  let has_doi :=
    ∃ q, Spec.matches_at Extractor.DOI_FLAGS Extractor.DOI_PATTERN (join_lines tail) q in
  length tail = n - 3 * n / 5
  ∧ 2 * n ≤ 5 * length tail < 2 * n + 5
  ∧ (has_doi → Extractor.find_references_section text = Some (join_lines tail))
  ∧ (¬ has_doi → Extractor.find_references_section text = None).
Proof.
  intros Hnone Hlen Hsmall lines n tail has_doi.
  assert (Extractor.last_portion text = join_lines tail) as Htail.
  { unfold Extractor.last_portion. by rewrite tail_start_floor. }
  split; [apply length_drop|]. split.
  { subst tail. rewrite length_drop. fold n.
    pose proof (Nat.div_mod_eq (3 * n) 5).
    pose proof (Nat.mod_upper_bound (3 * n) 5). lia. }
  unfold Extractor.find_references_section.
  rewrite header_loop_None.
  2: { intros h Hh. apply search_None. intros q. by apply Hnone. }
  rewrite (proj2 (Nat.ltb_lt _ _) Hlen), Htail.
  destruct (Re.search Extractor.DOI_FLAGS Extractor.DOI_PATTERN (join_lines tail))
    as [m|] eqn:Hsearch.
  - split; [done|]. intros Hno. exfalso. apply Hno.
    apply search_leftmost in Hsearch as [Hm _]. by eexists.
  - split; [|done]. intros [q Hq]. exfalso.
    by apply (proj1 (search_None _ _ _) Hsearch q).
Qed.

Lemma fallback_tail_starts_at_three_fifths_witness :
  Extractor.find_references_section Sample.fifty_one_lines
  = Some (join_lines (drop 30 (split_lines Sample.fifty_one_lines))).
Proof.
  refine (proj1 (proj2 (proj2 (fallback_tail_starts_at_three_fifths
                                 Sample.fifty_one_lines _ _ _))) _).
  - intros h q Hh. apply search_None. vm_compute in Hh.
    repeat (apply elem_of_cons in Hh as [->|Hh]; [vm_compute; reflexivity|]).
    apply elem_of_nil in Hh. destruct Hh.
  - vm_compute. lia.
  - vm_compute. reflexivity.
  - exists 4. split; [vm_compute; lia|]. vm_compute. eexists. reflexivity.
Defined.

(** C5 as stated fails: of 51 lines the tail searched is the last 21, not
    the last 20; here the only DOI is on the twenty-first line from the end,
    so the last 20 lines hold no DOI and yet a span is returned. *)
Lemma fallback_tail_of_51_lines_has_21 :
  length (split_lines Sample.fifty_one_lines) = 51
  ∧ Extractor.header_loop Extractor.REFERENCE_HEADERS Sample.fifty_one_lines = None
  ∧ length (Spec.last_two_fifths (split_lines Sample.fifty_one_lines)) = 20
  ∧ Re.search Extractor.DOI_FLAGS Extractor.DOI_PATTERN
      (join_lines (Spec.last_two_fifths (split_lines Sample.fifty_one_lines))) = None
  ∧ Extractor.find_references_section Sample.fifty_one_lines
    = Some (join_lines (drop 30 (split_lines Sample.fifty_one_lines)))
  ∧ length (drop 30 (split_lines Sample.fifty_one_lines)) = 21.
Proof. repeat split; vm_compute; reflexivity. Qed.

(** * Further properties *)

(** ** The patterns in words *)

Section patterns.
Import Re Spec Extractor.

Lemma lower_char_fixed y :
  is_word y = false ∨ is_digit y = true → lower_char y = y.
Proof.
  destruct y as [[] [] [] [] [] [] [] []]; vm_compute; intros [?|?]; congruence.
Qed.

Lemma lower_char_caseless x y :
  is_word y = false ∨ is_digit y = true → lower_char x = lower_char y → x = y.
Proof.
  intros Hy. rewrite (lower_char_fixed y Hy). intros <-. revert Hy.
  destruct x as [[] [] [] [] [] [] [] []]; vm_compute; intros [?|?]; congruence.
Qed.

Lemma lower_caseless t w :
  Forall (λ y, is_word y = false ∨ is_digit y = true) w →
  lower t = lower w → t = w.
Proof.
  intros Hw. revert t. induction Hw as [|y w Hy _ IH]; intros [|x t] Heq;
    try discriminate Heq; [done|].
  injection Heq as Hx Ht. f_equal; [by apply lower_char_caseless | by apply IH].
Qed.

Lemma doi_class_spec c :
  atom_matches DOI_FLAGS
    (Class true [ISpace; IChar (ch "["); IChar (ch "]"); IChar (ch "<");
                 IChar (ch ">"); IChar DQUOTE; IChar SQUOTE;
                 IChar (ch "{"); IChar (ch "}"); IChar (ch "|");
                 IChar BACKSLASH; IChar (ch "^"); IChar (ch "`")]) c
  = doi_char c.
Proof. destruct c as [[] [] [] [] [] [] [] []]; vm_compute; reflexivity. Qed.

Lemma match_here_is_Some f r c :
  is_Some (match_here f r c) ↔ ∃ c', Matches f r c c'.
Proof.
  unfold match_here. rewrite fmap_is_Some, run_spec.
  split; intros (c' & H); exists c'; [tauto | by split].
Qed.

Lemma cursor_at_split text q :
  q ≤ length text →
  ∃ pre s, text = pre ++ s ∧ length pre = q
           ∧ cursor_at text q = Cursor (last pre) q s [].
Proof.
  intros Hq. exists (take q text), (drop q text).
  split; [by rewrite take_drop|]. split; [|done].
  rewrite length_take. lia.
Qed.


Lemma REFERENCE_HEADERS_words : REFERENCE_HEADERS = header_pattern <$> HEADER_WORDS.
Proof. reflexivity. Qed.

Lemma consume_before c taken :
  before (consume c taken) = from_option Some (before c) (last taken).
Proof.
  revert c. induction taken as [|x t IH]; intros c; [done|].
  cbn [consume]. rewrite IH. cbn [advance before].
  destruct t as [|y t]; [done|].
  change (last (x :: y :: t)) with (last (y :: t)).
  destruct (last (y :: t)) eqn:E; [done|]. by apply last_None in E.
Qed.

Lemma consume_before_app pre p s g taken :
  before (consume (Cursor (last pre) p s g) taken) = last (pre ++ taken).
Proof.
  rewrite consume_before, last_app. cbn [before]. by destruct (last taken).
Qed.

Lemma Matches_WordB f c c' :
  Matches f WordB c c' ↔ c' = c ∧ word_before c ≠ word_after c.
Proof.
  split.
  - by inversion 1.
  - intros [-> H]. by constructor.
Qed.

Lemma atom_space f x : atom_matches f space x = is_space x.
Proof.
  cbn. unfold class_has. cbn. rewrite !orb_false_r.
  destruct (is_space x) eqn:Hx; [done|]. cbn.
  destruct (IGNORECASE f); [|done]. cbn.
  revert Hx. destruct x as [[] [] [] [] [] [] [] []]; vm_compute; congruence.
Qed.

Lemma word_before_last pre p s g :
  word_before (Cursor (last pre) p s g) = from_option is_word false (last pre).
Proof. unfold word_before. cbn. by destruct (last pre). Qed.

Lemma word_after_head b p s g :
  word_after (Cursor b p s g) = from_option is_word false (head s).
Proof. unfold word_after. cbn. by destruct s. Qed.

Lemma word_before_consume pre p s g taken :
  word_before (consume (Cursor (last pre) p s g) taken)
  = from_option is_word false (last (pre ++ taken)).
Proof.
  unfold word_before. rewrite consume_before_app. by destruct (last (pre ++ taken)).
Qed.

Lemma word_after_rest c : word_after c = from_option is_word false (head (rest c)).
Proof. unfold word_after. by destruct (rest c). Qed.

Lemma header_at_one_word w1 text q :
  matches_at HEADER_FLAGS (header_pattern [w1]) text q ↔ header_at [w1] text q.
Proof.
  unfold matches_at. rewrite match_here_is_Some.
  unfold header_pattern, seq. cbn [foldr]. split.
  - intros [Hq (c' & (c1 & [-> Hb1]%Matches_WordB & (c2 & Hlit
        & (c3 & [-> Hb2]%Matches_WordB & ->%Matches_Eps)%Matches_Cat
        )%Matches_Cat)%Matches_Cat)].
    destruct (cursor_at_split text q Hq) as (pre & s & -> & Hpre & Hc).
    rewrite Hc in *. clear Hc.
    apply Matches_lit in Hlit as (w & Hr & Hw & ->).
    apply lit_ignorecase in Hw; [|done].
    rewrite word_before_consume, word_after_rest in Hb2.
    rewrite word_before_last, word_after_head in Hb1.
    set (post := rest (consume (Cursor (last pre) q s []) w)) in *.
    cbn [rest] in Hr. clearbody post. subst s.
    by exists pre, w, post.
  - intros (pre & w & post & -> & Hpre & Hw & Hb1 & Hb2).
    split; [rewrite length_app; lia|].
    destruct (cursor_at_split (pre ++ w ++ post) q)
      as (pre' & s & Heq & Hpre' & ->); [rewrite length_app; lia|].
    assert (pre' = pre ∧ s = w ++ post) as [-> ->].
    { apply app_inj_1; [congruence | done]. }
    set (c0 := Cursor (last pre) q (w ++ post) []).
    assert (rest (consume c0 w) = post) as Hr by by apply consume_rest.
    exists (consume c0 w). apply Matches_Cat. exists c0. split.
    { apply Matches_WordB. split; [done|].
      unfold c0. by rewrite word_before_last, word_after_head. }
    apply Matches_Cat. exists (consume c0 w). split.
    { apply Matches_lit. exists w. split; [by rewrite Hr|].
      split; [by apply lit_ignorecase | done]. }
    apply Matches_Cat. exists (consume c0 w). split; [|by apply Matches_Eps].
    apply Matches_WordB. split; [done|].
    rewrite word_after_rest, Hr. unfold c0. by rewrite word_before_consume.
Qed.

Lemma header_at_two_words w1 w2 text q :
  matches_at HEADER_FLAGS (header_pattern [w1; w2]) text q ↔ header_at [w1; w2] text q.
Proof.
  unfold matches_at. rewrite match_here_is_Some.
  unfold header_pattern, seq, plus. cbn [foldr]. split.
  - intros [Hq (c' & (c1 & [-> Hb1]%Matches_WordB & (c2 & Hlit1 & (c3 & Hsp
        & (c4 & Hlit2 & (c5 & [-> Hb2]%Matches_WordB & ->%Matches_Eps)%Matches_Cat
        )%Matches_Cat)%Matches_Cat)%Matches_Cat)%Matches_Cat)].
    destruct (cursor_at_split text q Hq) as (pre & s & -> & Hpre & Hc).
    rewrite Hc in *. clear Hc.
    apply Matches_lit in Hlit1 as (a & Hr1 & Ha & ->).
    apply lit_ignorecase in Ha; [|done].
    apply Matches_Rep in Hsp as (sp & Hr2 & Hsp & Hlen & _ & ->).
    apply Matches_lit in Hlit2 as (b & Hr3 & Hb & ->).
    apply lit_ignorecase in Hb; [|done].
    rewrite word_after_rest in Hb2.
    rewrite word_before_last, word_after_head in Hb1.
    set (c0 := Cursor (last pre) q s []) in *.
    set (r1 := rest (consume c0 a)) in *.
    set (r2 := rest (consume (consume c0 a) sp)) in *.
    set (post := rest (consume (consume (consume c0 a) sp) b)) in *.
    cbn [rest c0] in Hr1. clearbody r1 r2 post.
    rewrite <- !consume_app in Hb2. unfold c0 in Hb2.
    rewrite word_before_consume in Hb2. clear c0.
    subst s r1 r2.
    exists pre, (a ++ sp ++ b), post.
    split; [by rewrite <- !app_assoc|]. split; [done|]. split.
    { exists a, sp, b. split; [done|]. split; [done|].
      split; [by destruct sp; [simpl in Hlen; lia|]|]. split; [|done].
      eapply Forall_impl; [exact Hsp|]. intros x; cbv beta. by rewrite atom_space. }
    split; [by rewrite <- !app_assoc|]. exact Hb2.
  - intros (pre & w & post & -> & Hpre & (a & sp & b & -> & Ha & Hne & Hsp & Hb)
            & Hb1 & Hb2).
    split; [rewrite length_app; lia|].
    destruct (cursor_at_split (pre ++ (a ++ sp ++ b) ++ post) q)
      as (pre' & s & Heq & Hpre' & ->); [rewrite length_app; lia|].
    assert (pre' = pre ∧ s = (a ++ sp ++ b) ++ post) as [-> ->].
    { apply app_inj_1; [congruence | done]. }
    set (c0 := Cursor (last pre) q ((a ++ sp ++ b) ++ post) []).
    set (c2 := consume c0 a).
    set (c3 := consume c2 sp).
    set (c4 := consume c3 b).
    assert (rest c2 = sp ++ b ++ post) as Hr2.
    { apply consume_rest. cbn. by rewrite <- !app_assoc. }
    assert (rest c3 = b ++ post) as Hr3 by by apply consume_rest.
    assert (rest c4 = post) as Hr4 by by apply consume_rest.
    assert (c4 = consume c0 (a ++ sp ++ b)) as Hc4.
    { unfold c4, c3, c2. by rewrite !consume_app. }
    exists c4. apply Matches_Cat. exists c0. split.
    { apply Matches_WordB. split; [done|].
      unfold c0. by rewrite word_before_last, word_after_head. }
    apply Matches_Cat. exists c2. split.
    { apply Matches_lit. exists a. split; [|split; [by apply lit_ignorecase | done]].
      rewrite Hr2. cbn. by rewrite <- !app_assoc. }
    apply Matches_Cat. exists c3. split.
    { apply Matches_Rep. exists sp. split; [by rewrite Hr2, Hr3|]. split.
      { eapply Forall_impl; [exact Hsp|]. intros x; cbv beta. by rewrite atom_space. }
      split; [destruct sp; [done | simpl; lia]|]. done. }
    apply Matches_Cat. exists c4. split.
    { apply Matches_lit. exists b. split; [by rewrite Hr3, Hr4|].
      split; [by apply lit_ignorecase | done]. }
    apply Matches_Cat. exists c4. split; [|by apply Matches_Eps].
    apply Matches_WordB. split; [done|].
    rewrite word_after_rest, Hr4, Hc4. unfold c0. by rewrite word_before_consume.
Qed.

Lemma header_at_spec words text q :
  words ∈ HEADER_WORDS →
  matches_at HEADER_FLAGS (header_pattern words) text q ↔ header_at words text q.
Proof.
  intros Hin. unfold HEADER_WORDS in Hin.
  repeat (apply elem_of_cons in Hin as [->|Hin];
          [first [apply header_at_one_word | apply header_at_two_words]|]).
  by apply elem_of_nil in Hin.
Qed.


End patterns.

(** ** The matches the engine returns *)

Section engine.
Import Re Spec.

Lemma rep_sound f a lo hi greedy k s m : ∀ n c,
  rest c = s →
  rep f a lo hi greedy k n c s = Some m →
  ∃ taken s', s = taken ++ s'
    ∧ Forall (λ x, atom_matches f a x = true) taken
    ∧ lo ≤ n + length taken
    ∧ (∀ h, hi = Some h → taken ≠ [] → n + length taken ≤ h)
    ∧ k (consume c taken) = Some m.
Proof.
  induction s as [|x s IH]; intros n [b p s0 g] Hrest;
    simpl in Hrest; subst s0; cbn [rep before pos groups].
  - destruct (lo <=? n) eqn:Hlo; [|done]. apply Nat.leb_le in Hlo.
    intros Hk. exists [], []. split; [done|]. split; [constructor|].
    split; [simpl; lia|]. split; [done|]. done.
  - set (c := Cursor b p (x :: s) g).
    assert ((if lo <=? n then k c else None) = Some m →
            ∃ taken s', x :: s = taken ++ s'
              ∧ Forall (λ x, atom_matches f a x = true) taken
              ∧ lo ≤ n + length taken
              ∧ (∀ h, hi = Some h → taken ≠ [] → n + length taken ≤ h)
              ∧ k (consume c taken) = Some m) as Hstop.
    { destruct (lo <=? n) eqn:Hlo; [|done]. apply Nat.leb_le in Hlo.
      intros Hk. exists [], (x :: s). split; [done|]. split; [constructor|].
      split; [simpl; lia|]. done. }
    destruct (within hi n && atom_matches f a x) eqn:Hcond; [|exact Hstop].
    apply andb_true_iff in Hcond as [Hw Hx].
    assert (rep f a lo hi greedy k (S n) (advance c x s) s = Some m →
            ∃ taken s', x :: s = taken ++ s'
              ∧ Forall (λ x, atom_matches f a x = true) taken
              ∧ lo ≤ n + length taken
              ∧ (∀ h, hi = Some h → taken ≠ [] → n + length taken ≤ h)
              ∧ k (consume c taken) = Some m) as Hmore.
    { intros Hrep. apply IH in Hrep as (t & s' & -> & Hall & Hlo & Hhi & Hk); [|done].
      exists (x :: t), s'. split; [done|]. split; [by constructor|].
      split; [simpl; lia|]. split; [|done].
      intros h Hh _. destruct t as [|y t].
      - simpl. subst hi. simpl in Hw. apply Nat.ltb_lt in Hw. lia.
      - specialize (Hhi h Hh ltac:(done)). simpl in *. lia. }
    destruct greedy.
    + destruct (rep f a lo hi true k (S n) (advance c x s) s) eqn:Hrep.
      * intros [= <-]. by apply Hmore.
      * exact Hstop.
    + destruct (if lo <=? n then k c else None) eqn:Hs.
      * intros [= <-]. by apply Hstop.
      * exact Hmore.
Qed.

Lemma run_sound f r : ∀ c k m,
  run f r c k = Some m → ∃ c', Matches f r c c' ∧ k c' = Some m.
Proof.
  induction r as [|a|a lo hi greedy|r1 IH1 r2 IH2|r1 IH1 r2 IH2|i r IH|r IH| | | |];
    intros c k m; cbn [run].
  - intros Hk. exists c. split; [constructor | done].
  - destruct (rest c) as [|x xs] eqn:Hrest; [done|].
    destruct (atom_matches f a x) eqn:Hx; [|done].
    intros Hk. eexists. split; [by econstructor | done].
  - intros Hrep. apply rep_sound in Hrep as (taken & s' & Hrest & Hall & Hlo & Hhi & Hk);
      [|done].
    eexists. split; [|exact Hk]. econstructor; [done|done|done|].
    intros h Hh. destruct taken as [|y t]; [simpl; lia|].
    by apply (Hhi h Hh).
  - intros (c1 & Hm1 & (c2 & Hm2 & Hk)%IH2)%IH1. exists c2.
    split; [by econstructor | done].
  - destruct (run f r1 c k) as [m'|] eqn:H1.
    + intros [= <-]. apply IH1 in H1 as (c' & Hm & Hk). exists c'.
      split; [by apply M_Alt_l | done].
    + intros (c' & Hm & Hk)%IH2. exists c'. split; [by apply M_Alt_r | done].
  - intros (c' & Hm & Hk)%IH. eexists. split; [by econstructor | done].
  - destruct (run f r c Some) as [m'|] eqn:Hrun; [|done].
    apply IH in Hrun as (c' & Hm & _). intros Hk. exists c.
    split; [by econstructor | done].
  - intros Hk. exists c. split; [|by destruct (before c) as [x|];
      [destruct (MULTILINE f && bool_decide (x = LF))|]].
    constructor. destruct (before c) as [x|]; [|by left].
    destruct (MULTILINE f && bool_decide (x = LF)) eqn:Hc; [|done].
    apply andb_true_iff in Hc as [? ->%bool_decide_eq_true]. by right.
  - intros Hk. exists c.
    destruct (rest c) as [|x [|y s]] eqn:Hrest.
    + split; [constructor; by left | done].
    + destruct (decide (x = LF)) as [->|Hx].
      * rewrite bool_decide_eq_true_2 in Hk by done.
        split; [constructor; right; by left | done].
      * by rewrite bool_decide_eq_false_2 in Hk.
    + destruct (MULTILINE f && bool_decide (x = LF)) eqn:Hc; [|done].
      apply andb_true_iff in Hc as [? ->%bool_decide_eq_true].
      split; [|done]. constructor. right; right. by rewrite Hrest.
  - destruct (rest c) eqn:Hrest; [|done]. intros Hk. exists c.
    split; [by constructor | done].
  - destruct (xorb (word_before c) (word_after c)) eqn:Hx; [|done].
    intros Hk. exists c. split; [|done]. constructor.
    by destruct (word_before c), (word_after c).
Qed.

Lemma consume_pos c taken : pos (consume c taken) = pos c + length taken.
Proof.
  revert c. induction taken as [|x t IH]; intros c; [simpl; lia|].
  cbn [consume]. rewrite IH. simpl. lia.
Qed.

(** A match covers a stretch of the text from the cursor on. *)
Lemma Matches_geometry f r c c' :
  Matches f r c c' →
  ∃ taken, rest c = taken ++ rest c' ∧ pos c' = pos c + length taken.
Proof.
  induction 1 as [c|a c x xs Hrest Hx|a lo hi g c taken s Hrest Hall Hlo Hhi
                 |r1 r2 c c1 c2 _ IH1 _ IH2|r1 r2 c c' _ IH|r1 r2 c c' _ IH
                 |i r c c' _ IH|r c c' _ IH|c|c|c|c];
    try (exists []; split; [done | simpl; lia]).
  - exists [x]. split; [done | simpl; lia].
  - exists taken. rewrite (consume_rest _ _ _ Hrest), consume_pos. done.
  - destruct IH1 as (t1 & Hr1 & Hp1), IH2 as (t2 & Hr2 & Hp2).
    exists (t1 ++ t2). rewrite Hr1, Hr2, Hp2, Hp1, length_app, <- app_assoc.
    split; [done | lia].
  - done.
  - done.
  - done.
Qed.

Lemma match_here_sound f r c m :
  match_here f r c = Some m →
  ∃ c' taken, Matches f r c c' ∧ rest c = taken ++ rest c'
    ∧ m_start m = pos c ∧ m_end m = pos c + length taken.
Proof.
  unfold match_here. destruct (run f r c Some) as [e|] eqn:Hrun; [|done].
  intros [= <-]. apply run_sound in Hrun as (c' & Hm & [= ->]).
  destruct (Matches_geometry _ _ _ _ Hm) as (taken & Hrest & Hpos).
  by exists e, taken.
Qed.

Lemma finditer_from_elem f r s : ∀ pre skip m,
  m ∈ finditer_from f r (last pre) (length pre) skip s →
  ∃ q, q ≤ length (pre ++ s) ∧ match_here f r (cursor_at (pre ++ s) q) = Some m.
Proof.
  induction s as [|x s IH]; intros pre skip m.
  - destruct skip as [|k]; cbn [finditer_from]; [|by intros ?%elem_of_nil].
    rewrite <- cursor_at_app.
    destruct (match_here f r (cursor_at (pre ++ []) (length pre))) as [m'|] eqn:Hm;
      [|by intros ?%elem_of_nil].
    intros ->%list_elem_of_singleton. exists (length pre).
    split; [rewrite length_app; lia | done].
  - assert (∀ k, m ∈ finditer_from f r (Some x) (S (length pre)) k s →
              ∃ q, q ≤ length (pre ++ x :: s)
                   ∧ match_here f r (cursor_at (pre ++ x :: s) q) = Some m) as Hnext.
    { intros k Hin. specialize (IH (pre ++ [x]) k m).
      rewrite last_snoc, length_app, <- app_assoc in IH. simpl in IH.
      replace (length pre + 1) with (S (length pre)) in IH by lia. by apply IH. }
    destruct skip as [|k]; cbn [finditer_from]; [|apply Hnext].
    rewrite <- cursor_at_app.
    destruct (match_here f r (cursor_at (pre ++ x :: s) (length pre)))
      as [m'|] eqn:Hm; [|apply Hnext].
    intros [->|Hin]%elem_of_cons; [|by eapply Hnext].
    exists (length pre). split; [rewrite length_app; lia | done].
Qed.

Lemma finditer_elem f r text m :
  m ∈ finditer f r text →
  ∃ q, q ≤ length text ∧ match_here f r (cursor_at text q) = Some m.
Proof. intros Hin. by apply (finditer_from_elem f r text [] 0 m). Qed.

Lemma finditer_none f r text :
  (∀ q, ¬ matches_at f r text q) → finditer f r text = [].
Proof.
  intros Hnone. destruct (finditer f r text) as [|m ms] eqn:Hms; [done|].
  exfalso. destruct (finditer_elem f r text m) as (q & Hq & Hm).
  { rewrite Hms. left. }
  apply (Hnone q). split; [done|]. by rewrite Hm.
Qed.

(** A string that [findall] returns stands in the text, where the pattern
    matches it. *)
Lemma findall_elem f r text d :
  d ∈ findall f r text →
  ∃ q c', q ≤ length text ∧ Matches f r (cursor_at text q) c'
          ∧ drop q text = d ++ rest c'.
Proof.
  unfold findall. intros (m & -> & Hin)%list_elem_of_fmap.
  apply finditer_elem in Hin as (q & Hq & Hm).
  apply match_here_sound in Hm as (c' & taken & HM & Hrest & Hs & He).
  exists q, c'. split; [done|]. split; [done|].
  cbn [cursor_at rest pos] in *. unfold group0, slice. rewrite Hs, He, Hrest.
  replace (q + length taken - q) with (length taken) by lia.
  by rewrite take_app_length.
Qed.

End engine.

(** ** The DOIs of a text *)

Section tokens.
Import Re Spec Extractor.

Lemma Matches_DOI c c' :
  Matches DOI_FLAGS DOI_PATTERN c c' →
  ∃ ds body,
    rest c = str "10." ++ ds ++ str "/" ++ body ++ rest c'
    ∧ 4 ≤ length ds ≤ 9 ∧ Forall (λ x, is_digit x = true) ds
    ∧ body ≠ [] ∧ Forall (λ x, doi_char x = true) body.
Proof.
  unfold DOI_PATTERN, seq, plus. cbn [foldr].
  intros (c2 & H10 & (c3 & Hdig & (c4 & Hslash & (c5 & Hany
        & ->%Matches_Eps)%Matches_Cat)%Matches_Cat)%Matches_Cat)%Matches_Cat.
  apply Matches_lit in H10 as (t1 & Hr1 & Ht1 & ->).
  apply lit_ignorecase in Ht1; [|done].
  apply lower_caseless in Ht1 as ->.
  2: { apply (bool_decide_unpack _). vm_compute. exact I. }
  apply Matches_Rep in Hdig as (ds & Hr2 & Hds & Hlen & Hhi & ->).
  apply Matches_lit in Hslash as (t2 & Hr3 & Ht2 & ->).
  apply lit_ignorecase in Ht2; [|done].
  apply lower_caseless in Ht2 as ->.
  2: { apply (bool_decide_unpack _). vm_compute. exact I. }
  apply Matches_Rep in Hany as (body & Hr4 & Hbody & Hlen' & _ & ->).
  exists ds, body. rewrite Hr1, Hr2, Hr3, Hr4.
  split; [done|]. split; [split; [done | by apply Hhi]|]. split.
  { eapply Forall_impl; [exact Hds|]. intros x; cbv beta. by rewrite atom_digit. }
  split; [by destruct body; [simpl in Hlen'; lia|]|].
  eapply Forall_impl; [exact Hbody|]. intros x; cbv beta. by rewrite doi_class_spec.
Qed.

(** [rstrip] and [re.sub] on a string whose beginning they cannot touch. *)
Lemma rstrip_keep P x b : P x = false → rstrip P (x :: b) = x :: rstrip P b.
Proof. intros Hx. cbn [rstrip]. destruct (rstrip P b); [by rewrite Hx | done]. Qed.

Lemma rstrip_app_keep P a x b :
  P x = false → rstrip P (a ++ x :: b) = a ++ x :: rstrip P b.
Proof.
  intros Hx. induction a as [|y a IH]; [by apply rstrip_keep|].
  cbn [app rstrip]. rewrite IH. by destruct a.
Qed.

Lemma rstrip_Forall (Q : ascii → Prop) P s : Forall Q s → Forall Q (rstrip P s).
Proof.
  induction 1 as [|x s Hx _ IH]; [constructor|]. cbn [rstrip].
  destruct (rstrip P s) eqn:Hr.
  - destruct (P x); by repeat constructor.
  - by constructor.
Qed.

Lemma length_rstrip P s : length (rstrip P s) ≤ length s.
Proof.
  induction s as [|x s IH]; [done|]. cbn [rstrip].
  destruct (rstrip P s) eqn:Hr.
  - destruct (P x); simpl; lia.
  - simpl in *. lia.
Qed.

Lemma ENTITY_needs_ampersand prev p x s :
  x ≠ ch "&" → match_here no_flags ENTITY (Cursor prev p (x :: s) []) = None.
Proof.
  intros Hx. unfold match_here, ENTITY, seq, lit. cbn.
  by rewrite bool_decide_eq_false_2.
Qed.

Lemma delete_from_keep a : ∀ prev p b,
  ch "&" ∉ a →
  ∃ prev' p', delete_from no_flags ENTITY prev p 0 (a ++ b)
              = a ++ delete_from no_flags ENTITY prev' p' 0 b.
Proof.
  induction a as [|x a IH]; intros prev p b Ha; [by exists prev, p|].
  apply not_elem_of_cons in Ha as [Hx Ha].
  cbn [app delete_from]. rewrite ENTITY_needs_ampersand by done.
  destruct (IH (Some x) (S p) b Ha) as (prev' & p' & ->). by exists prev', p'.
Qed.

Lemma delete_from_Forall (Q : ascii → Prop) f r s : ∀ prev p skip,
  Forall Q s → Forall Q (delete_from f r prev p skip s).
Proof.
  induction s as [|x s IH]; intros prev p skip Hs; [constructor|].
  apply Forall_cons in Hs as [Hx Hs]. cbn [delete_from].
  destruct skip as [|k]; [|by apply IH].
  destruct (match_here f r _) as [m|].
  - destruct (m_end m =? p); [constructor; [done | by apply IH] | by apply IH].
  - constructor; [done | by apply IH].
Qed.

Lemma clean_doi_of_token ds body :
  Forall (λ x, is_digit x = true) ds → Forall (λ x, doi_char x = true) body →
  ∃ suffix, clean_doi (str "10." ++ ds ++ str "/" ++ body)
            = str "10." ++ ds ++ str "/" ++ suffix
    ∧ Forall (λ x, doi_char x = true) suffix.
Proof.
  intros Hds Hbody. unfold clean_doi.
  replace (str "10." ++ ds ++ str "/" ++ body)
    with ((str "10." ++ ds) ++ ch "/" :: body) by by rewrite <- app_assoc.
  rewrite rstrip_app_keep by reflexivity.
  unfold sub_empty.
  replace ((str "10." ++ ds) ++ ch "/" :: rstrip (one_of TRAILING) body)
    with ((str "10." ++ ds ++ str "/") ++ rstrip (one_of TRAILING) body)
    by by rewrite <- !app_assoc.
  destruct (delete_from_keep (str "10." ++ ds ++ str "/") None 0
              (rstrip (one_of TRAILING) body)) as (prev' & p' & ->).
  { rewrite !elem_of_app. intros [Hin|[Hin|Hin]].
    - vm_compute in Hin.
      repeat (apply elem_of_cons in Hin as [Hin|Hin]; [discriminate|]).
      by apply elem_of_nil in Hin.
    - rewrite Forall_forall in Hds. apply Hds in Hin. vm_compute in Hin. done.
    - vm_compute in Hin.
      repeat (apply elem_of_cons in Hin as [Hin|Hin]; [discriminate|]).
      by apply elem_of_nil in Hin. }
  eexists. split; [by rewrite <- !app_assoc|].
  by apply delete_from_Forall, rstrip_Forall.
Qed.

Lemma extract_dois_elem text d :
  d ∈ extract_dois text →
  10 < length d ∧ ∃ raw, raw ∈ findall DOI_FLAGS DOI_PATTERN text ∧ d = clean_doi raw.
Proof.
  unfold extract_dois. rewrite dedup_loop. cbn [app]. intros Hin.
  eapply elem_of_sublist in Hin; [|apply dedup_ci_sublist].
  apply list_elem_of_filter in Hin as [_ Hin].
  apply list_elem_of_filter in Hin as [Hlen Hin].
  apply list_elem_of_fmap in Hin as (raw & -> & Hraw). split; [done|]. by exists raw.
Qed.


End tokens.


(** ** Authors, requests and batches of the verifier *)

Section verifier_more.
Import Re Spec Verifier.

Lemma length_omap_le {A B} (f : A → option B) l : length (omap f l) ≤ length l.
Proof.
  induction l as [|x l IH]; [done|]. cbn [omap list_omap].
  destruct (f x); cbn [length]; lia.
Qed.

Lemma add_author_loop l : ∀ acc,
  foldl add_author acc l = acc ++ omap display_name l.
Proof.
  induction l as [|a l IH]; intros acc; cbn [foldl omap list_omap].
  { by rewrite app_nil_r. }
  rewrite IH. unfold add_author.
  destruct (display_name a) as [n|] eqn:Hd; unfold display_name in Hd;
    destruct (family a) as [fam|]; [destruct (given a)|destruct (name a)
                                   |destruct (given a)|destruct (name a)];
    simplify_eq; rewrite <- ?app_assoc; done.
Qed.

Lemma batch_loop_spec {D} (net : list (event D) → pystr → reply) delay dois :
  ∀ i results trace,
    length (batch_loop net delay i dois (results, trace)).1
    = length results + length dois
    ∧ (batch_loop net delay i dois (results, trace)).2
      = trace ++ concat (imap (λ j d,
            (if 0 <? i + j then [Slept delay] else [])
            ++ (Requested <$> requests (verify_doi d))) dois).
Proof.
  induction dois as [|d dois IH]; intros i results trace.
  { cbn. rewrite app_nil_r. split; [lia | done]. }
  cbn [batch_loop].
  destruct (perform net (if 0 <? i then trace ++ [Slept delay] else trace)
              (verify_doi d)) as [r trace'] eqn:Hperform.
  assert (trace' = (trace ++ (if 0 <? i then [Slept delay] else []))
                   ++ (Requested <$> requests (verify_doi d))) as Htrace'.
  { unfold perform in Hperform.
    destruct (verify_doi d) as [a|url k]; injection Hperform as _ <-;
      cbn [requests fmap list_fmap]; destruct (0 <? i);
      by rewrite ?app_nil_r. }
  destruct (IH (S i) (results ++ [r]) trace') as [Hlen Htrace].
  rewrite Hlen, Htrace. split.
  { rewrite length_app. cbn. lia. }
  cbn [imap concat]. rewrite Nat.add_0_r, Htrace', <- !app_assoc.
  do 3 f_equal. f_equal.
  apply imap_ext. intros j x _. cbn [compose]. by rewrite Nat.add_succ_r.
Qed.

Lemma batch_loop_results {D} (net : pystr → reply) (delay : D) dois :
  ∀ i results trace,
    (batch_loop (λ _, net) delay i dois (results, trace)).1
    = results ++ ((λ d, result net (verify_doi d)) <$> dois).
Proof.
  induction dois as [|d dois IH]; intros i results trace.
  { cbn. by rewrite app_nil_r. }
  cbn [batch_loop].
  destruct (perform (λ _, net) (if 0 <? i then trace ++ [Slept delay] else trace)
              (verify_doi d)) as [r trace'] eqn:Hperform.
  rewrite IH, fmap_cons, <- app_assoc. do 2 f_equal.
  unfold perform in Hperform.
  by destruct (verify_doi d); injection Hperform as <- _.
Qed.

Lemma requested_app {D} (t1 t2 : list (event D)) :
  requested (t1 ++ t2) = requested t1 ++ requested t2.
Proof. apply omap_app. Qed.

Lemma slept_app {D} (t1 t2 : list (event D)) :
  slept (t1 ++ t2) = slept t1 ++ slept t2.
Proof. apply omap_app. Qed.

Lemma requested_Requested {D} urls :
  requested (D:=D) (Requested <$> urls) = urls.
Proof.
  unfold requested. induction urls as [|u urls IH]; [done|].
  cbn. by f_equal.
Qed.

Lemma slept_Requested {D} urls : slept (D:=D) (Requested <$> urls) = [].
Proof. by induction urls. Qed.

Lemma requests_lookup_url doi :
  requests (verify_doi doi) = option_list (lookup_url doi).
Proof.
  unfold verify_doi, lookup_url.
  destruct (clean_doi doi) as [|c s]; [done|].
  rewrite bool_decide_eq_true_2 by done. cbn [andb].
  by destruct (shape_ok (c :: s)).
Qed.

Lemma slept_paced {D} (delay : D) dois : ∀ i,
  slept (concat (imap (λ j d,
           (if 0 <? i + j then [Slept delay] else [])
           ++ (Requested <$> requests (verify_doi d))) dois))
  = replicate (if 0 <? i then length dois else length dois - 1) delay.
Proof.
  induction dois as [|d dois IH]; intros i; [by destruct (0 <? i)|].
  cbn [imap concat]. rewrite !slept_app, slept_Requested, app_nil_r, Nat.add_0_r.
  rewrite (imap_ext _ (λ j d0, (if 0 <? S i + j then [Slept delay] else [])
                               ++ (Requested <$> requests (verify_doi d0))))
    by (intros j x _; cbn [compose]; by rewrite Nat.add_succ_r).
  rewrite IH. cbn [Nat.ltb Nat.leb length].
  destruct i; cbn; by rewrite ?Nat.sub_0_r.
Qed.

Lemma requested_paced {D} (delay : D) dois : ∀ i,
  requested (concat (imap (λ j d,
           (if 0 <? i + j then [Slept delay] else [])
           ++ (Requested <$> requests (verify_doi d))) dois))
  = omap lookup_url dois.
Proof.
  induction dois as [|d dois IH]; intros i; [done|].
  cbn [imap concat]. rewrite !requested_app, requested_Requested.
  rewrite (imap_ext _ (λ j d0, (if 0 <? S i + j then [Slept delay] else [])
                               ++ (Requested <$> requests (verify_doi d0))))
    by (intros j x _; cbn [compose]; by rewrite Nat.add_succ_r).
  rewrite IH, requests_lookup_url. cbn [omap list_omap].
  by destruct (0 <? i + 0), (lookup_url d).
Qed.

End verifier_more.







(** ** From the pages to the result *)

Section pages.
Import Re Spec Extractor.

Lemma add_page_loop pages : ∀ acc,
  foldl add_page acc pages = acc ++ filter (λ t : pystr, t ≠ []) (omap id pages).
Proof.
  induction pages as [|p pages IH]; intros acc; cbn [foldl omap list_omap].
  { by rewrite app_nil_r. }
  rewrite IH. destruct p as [[|c s]|]; cbn [add_page id].
  - by rewrite filter_cons_False by (by intros ?).
  - rewrite filter_cons_True by done. by rewrite <- app_assoc.
  - done.
Qed.

Lemma join_nil sep parts :
  Forall (λ t, t ≠ []) parts → join sep parts = [] → parts = [].
Proof.
  intros Hall. destruct Hall as [|p parts Hp _]; [done|].
  cbn [join]. destruct p; [done|]. by destruct parts.
Qed.

Lemma textless_pages pages :
  Forall (λ p, p = None ∨ p = Some []) pages →
  filter (λ t : pystr, t ≠ []) (omap id pages) = [].
Proof.
  induction 1 as [|p pages [->| ->] _ IH]; [done|done|].
  cbn [omap list_omap id]. by rewrite filter_cons_False by (by intros ?).
Qed.

Lemma doi_loop_elem all_dois body d : doi_loop all_dois body = Some d → d ∈ all_dois.
Proof.
  induction all_dois as [|x l IH]; cbn [doi_loop]; [done|].
  destruct (str_in (lower x) (lower body)).
  - intros [= ->]. left.
  - intros Hd. right. by apply IH.
Qed.

End pages.







(** ** What the segmenter returns *)

Section entries_more.
Import Re Spec Extractor.

Lemma lstrip_suffix P s : lstrip P s `suffix_of` s.
Proof.
  induction s as [|c s IH]; [done|]. cbn [lstrip].
  destruct (P c); [by apply suffix_cons_r | done].
Qed.

Lemma rstrip_prefix P s : rstrip P s `prefix_of` s.
Proof.
  induction s as [|c s IH]; [done|]. cbn [rstrip].
  destruct (rstrip P s) as [|y t] eqn:Hr.
  - destruct (P c); [apply prefix_nil | apply prefix_cons, prefix_nil].
  - by apply prefix_cons.
Qed.

Lemma rstrip_idemp P s : rstrip P (rstrip P s) = rstrip P s.
Proof.
  induction s as [|c s IH]; [done|]. cbn [rstrip].
  destruct (rstrip P s) as [|y t] eqn:Hr.
  - destruct (P c) eqn:Hc; [done|]. cbn [rstrip]. by rewrite Hc.
  - cbn [rstrip] in *. by rewrite IH.
Qed.

Lemma lstrip_head P s :
  lstrip P s = [] ∨ ∃ c t, lstrip P s = c :: t ∧ P c = false.
Proof.
  induction s as [|c s IH]; [by left|]. cbn [lstrip].
  destruct (P c) eqn:Hc; [done|]. right. by exists c, s.
Qed.

Lemma strip_idemp s : strip (strip s) = strip s.
Proof.
  unfold strip. destruct (lstrip_head is_space s) as [-> | (c & t & -> & Hc)]; [done|].
  rewrite rstrip_keep by done. cbn [lstrip]. rewrite Hc.
  rewrite <- (rstrip_keep _ _ _ Hc). apply rstrip_idemp.
Qed.

Lemma strip_infix s : ∃ a b, s = a ++ strip s ++ b.
Proof.
  unfold strip. destruct (lstrip_suffix is_space s) as [a Ha].
  destruct (rstrip_prefix is_space (lstrip is_space s)) as [b Hb].
  exists a, b. by rewrite <- Hb.
Qed.

Lemma slice_infix text a b : ∃ pre post, text = pre ++ slice text a b ++ post.
Proof.
  unfold slice. exists (take a text), (drop (b - a) (drop a text)).
  by rewrite take_drop, take_drop.
Qed.

Lemma group_infix text m i : ∃ pre post, text = pre ++ group text m i ++ post.
Proof.
  unfold group. destruct (list_find _ _) as [[? [? [a b]]]|].
  - apply slice_infix.
  - by exists [], text.
Qed.

Lemma pattern_loop_elem pats text e :
  e ∈ pattern_loop pats text [] →
  ∃ p m, p ∈ pats ∧ 3 < length (finditer CITATION_FLAGS p text)
         ∧ m ∈ finditer CITATION_FLAGS p text
         ∧ e = entry text m ∧ 20 < length e.2.
Proof.
  induction pats as [|p pats IH]; cbn [pattern_loop]; [by intros ?%elem_of_nil|].
  destruct (negb (bool_decide (finditer CITATION_FLAGS p text = []))
            && (3 <? length (finditer CITATION_FLAGS p text))) eqn:Hacc.
  - rewrite collect_loop. cbn [app].
    intros (m & Hm & He & Hlen)%elem_of_entries.
    apply andb_true_iff in Hacc as [_ Hacc%Nat.ltb_lt].
    exists p, m. split; [left|done].
  - intros (p' & m & Hp' & H)%IH. exists p', m. split; [by right | done].
Qed.

End entries_more.








(** ** From the extractor to the verifier *)

Section pipeline.
Import Re Spec.

Lemma match_ENTITY prev p s m :
  match_here no_flags Extractor.ENTITY (Cursor prev p s []) = Some m →
  ∃ letters tail,
    s = Extractor.ch "&" :: letters ++ Extractor.ch ";" :: tail
    ∧ m_end m = p + S (S (length letters)).
Proof.
  intros (c' & taken & HM & Hrest & _ & Hend)%match_here_sound.
  cbn [rest pos] in *.
  unfold Extractor.ENTITY, seq, plus in HM. cbn [foldr] in HM.
  apply Matches_Cat in HM as (c1 & Hamp & (c2 & Hlet & (c3 & Hsemi
        & Heps%Matches_Eps)%Matches_Cat)%Matches_Cat).
  subst c'.
  apply Matches_lit in Hamp as (t1 & Hr1 & Ht1%lit_exact & _); [|done].
  apply Matches_Rep in Hlet as (letters & Hr2 & _ & _ & _ & _).
  apply Matches_lit in Hsemi as (t2 & Hr3 & Ht2%lit_exact & _); [|done].
  subst t1 t2. cbn [rest] in Hr1. rewrite Hr2, Hr3 in Hr1.
  exists letters, (rest c3). split; [done|].
  assert (taken = str "&" ++ letters ++ str ";") as ->.
  { apply (app_inv_tail (rest c3)). by rewrite <- Hrest, Hr1, <- !app_assoc. }
  rewrite Hend, !length_app. cbn. lia.
Qed.

Lemma last_cons_keep {A} (y : A) l x : last l = Some x → last (y :: l) = Some x.
Proof. intros Hl. by rewrite last_cons, Hl. Qed.

Lemma delete_from_last x s : ∀ prev p skip,
  last s = Some x → x ≠ Extractor.ch ";" →
  (∀ k, skip = S k → s !! k = Some (Extractor.ch ";")) →
  last (delete_from no_flags Extractor.ENTITY prev p skip s) = Some x.
Proof.
  induction s as [|y s IH]; intros prev p skip Hlast Hx Hskip; [done|].
  cbn [delete_from]. destruct skip as [|k].
  - assert (last (y :: delete_from no_flags Extractor.ENTITY (Some y) (S p) 0 s)
            = Some x) as Hkeep.
    { destruct s as [|z s]; [done|].
      rewrite last_cons_cons in Hlast.
      apply last_cons_keep, IH; [done | done | intros k [=]]. }
    destruct (match_here no_flags Extractor.ENTITY (Cursor prev p (y :: s) []))
      as [m|] eqn:Hm; [|done].
    destruct (m_end m =? p) eqn:Hend; [done|].
    apply match_ENTITY in Hm as (letters & tail & [= -> ->] & ->).
    replace (p + S (S (length letters)) - p - 1) with (S (length letters)) by lia.
    apply IH; [|done|].
    + destruct letters; cbn [app] in *; by rewrite last_cons_cons in Hlast.
    + intros k [= <-]. rewrite lookup_app_r by done. by rewrite Nat.sub_diag.
  - specialize (Hskip k eq_refl). destruct s as [|z s].
    { destruct k; [|done]. cbn in Hskip, Hlast. injection Hlast as ->. injection Hskip as ->. by destruct Hx. }
    rewrite last_cons_cons in Hlast.
    apply IH; [done|done|]. by intros k' ->.
Qed.

Lemma extractor_clean_doi_last raw x :
  last (Extractor.clean_doi raw) = Some x → one_of Verifier.TRAILING x = false.
Proof.
  unfold Extractor.clean_doi, sub_empty.
  destruct (last (rstrip (one_of Extractor.TRAILING) raw)) as [y|] eqn:Hy.
  - pose proof (rstrip_last _ _ _ Hy) as Hkeep.
    rewrite (delete_from_last y); [|done| |done].
    + intros [= <-]. apply bool_decide_eq_false. intros Hin.
      apply bool_decide_eq_false in Hkeep. apply Hkeep.
      change Extractor.TRAILING with (Verifier.TRAILING ++ [SQUOTE; DQUOTE]).
      apply elem_of_app. by left.
    + intros ->. vm_compute in Hkeep. discriminate.
  - apply last_None in Hy. by rewrite Hy.
Qed.

Lemma lstrip_id P s : Forall (λ c, P c = false) s → lstrip P s = s.
Proof. destruct 1 as [|c s Hc _]; [done|]. cbn [lstrip]. by rewrite Hc. Qed.

Lemma rstrip_id P s : (∀ x, last s = Some x → P x = false) → rstrip P s = s.
Proof.
  induction s as [|c s IH]; intros Hlast; [done|]. cbn [rstrip].
  destruct s as [|z s].
  - cbn [rstrip]. by rewrite (Hlast c).
  - rewrite IH; [done|]. intros x Hx. apply Hlast. by rewrite last_cons, Hx.
Qed.

Lemma replace_id s :
  str_in PERCENT_2F s = false → replace PERCENT_2F SLASH s = s.
Proof.
  apply (replace_ind (λ t r, str_in PERCENT_2F t = false → r = t)).
  - done.
  - intros t _ Hin. exfalso. cbn in Hin. by rewrite !bool_decide_eq_true_2 in Hin.
  - intros c t Hstart IH Hin. cbn [str_in] in Hin. rewrite Hstart in Hin.
    cbn [orb] in Hin. by rewrite IH.
Qed.

Lemma digit_no_space x : is_digit x = true → is_space x = false.
Proof. destruct x as [[] [] [] [] [] [] [] []]; vm_compute; congruence. Qed.

Lemma doi_char_no_space x : doi_char x = true → is_space x = false.
Proof. unfold doi_char. intros H%negb_true_iff. by apply orb_false_iff in H as [? _]. Qed.

Lemma extracted_doi_shape text d :
  d ∈ Extractor.extract_dois text →
  ∃ ds suffix,
    d = str "10." ++ ds ++ str "/" ++ suffix
    ∧ 4 ≤ length ds ∧ Forall (λ x, is_digit x = true) ds
    ∧ Forall (λ x, doi_char x = true) suffix
    ∧ ∀ x, last d = Some x → one_of Verifier.TRAILING x = false.
Proof.
  intros (Hlen & raw & Hraw & ->)%extract_dois_elem.
  apply findall_elem in Hraw as (q & c' & Hq & HM & Hdrop).
  apply Matches_DOI in HM as (ds & body & Hrest & Hds & Hdig & Hne & Hbody).
  cbn [cursor_at rest] in Hrest. rewrite Hdrop in Hrest.
  assert (raw = str "10." ++ ds ++ str "/" ++ body) as ->.
  { apply (app_inv_tail (rest c')). by rewrite Hrest, <- !app_assoc. }
  destruct (clean_doi_of_token ds body Hdig Hbody) as (suffix & Hclean & Hsuffix).
  exists ds, suffix. split; [done|]. split; [lia|]. split; [done|].
  split; [done|]. apply extractor_clean_doi_last.
Qed.

Lemma verifier_clean_doi_id ds suffix :
  Forall (λ x, is_digit x = true) ds →
  Forall (λ x, doi_char x = true) suffix →
  (∀ x, last (str "10." ++ ds ++ str "/" ++ suffix) = Some x →
        one_of Verifier.TRAILING x = false) →
  str_in PERCENT_2F (str "10." ++ ds ++ str "/" ++ suffix) = false →
  Verifier.clean_doi (str "10." ++ ds ++ str "/" ++ suffix)
  = str "10." ++ ds ++ str "/" ++ suffix.
Proof.
  intros Hds Hsuffix Hlast Hplain. unfold Verifier.clean_doi.
  assert (Forall (λ c, is_space c = false) (str "10." ++ ds ++ str "/" ++ suffix))
    as Hspace.
  { repeat apply Forall_app_2.
    - by repeat constructor.
    - eapply Forall_impl; [exact Hds|]. apply digit_no_space.
    - by repeat constructor.
    - eapply Forall_impl; [exact Hsuffix|]. apply doi_char_no_space. }
  assert (strip (str "10." ++ ds ++ str "/" ++ suffix)
          = str "10." ++ ds ++ str "/" ++ suffix) as ->.
  { unfold strip. rewrite lstrip_id by done. apply rstrip_id.
    intros x Hx. rewrite Forall_forall in Hspace. apply Hspace.
    apply last_Some in Hx as [l' ->]. apply elem_of_app. right. left. }
  assert (Verifier.prefix_loop Verifier.prefixes
            (str "10." ++ ds ++ str "/" ++ suffix)
          = str "10." ++ ds ++ str "/" ++ suffix) as ->.
  { reflexivity. }
  rewrite rstrip_id by done. by apply replace_id.
Qed.

Lemma digits_then_slash ds ds' r r' :
  Forall (λ x, is_digit x = true) ds → Forall (λ x, is_digit x = true) ds' →
  ds ++ Extractor.ch "/" :: r = ds' ++ Extractor.ch "/" :: r' →
  ds = ds' ∧ r = r'.
Proof.
  intros Hds. revert ds'. induction Hds as [|x ds Hx _ IH];
    intros ds' Hds' Heq; destruct Hds' as [|y ds' Hy Hds']; cbn [app] in Heq.
  - by injection Heq as <-.
  - injection Heq as <- _. vm_compute in Hy. discriminate.
  - injection Heq as -> _. vm_compute in Hx. discriminate.
  - injection Heq as -> Heq. destruct (IH ds' Hds' Heq) as [-> ->]. done.
Qed.

Lemma bare_slash_not_shaped ds :
  Forall (λ x, is_digit x = true) ds →
  Verifier.shape_ok (str "10." ++ ds ++ str "/") = false.
Proof.
  intros Hds. apply not_true_is_false. rewrite shape_ok_spec.
  intros (ds' & suffix' & nl & Heq & _ & Hds' & Hne & _).
  injection Heq as Heq.
  apply (digits_then_slash ds ds' [] (suffix' ++ nl) Hds Hds') in Heq as [_ Heq].
  by destruct suffix'.
Qed.

End pipeline.



(** ** The span of the located section *)

Section span.
Import Re Spec Extractor.

Lemma split_lines_nonempty s : split_lines s ≠ [].
Proof.
  destruct s as [|c s]; [done|]. cbn [split_lines].
  destruct (bool_decide (c = LF)); [done|]. by destruct (split_lines s).
Qed.

Lemma join_split_lines s : join_lines (split_lines s) = s.
Proof.
  induction s as [|c s IH]; [done|]. cbn [split_lines].
  pose proof (split_lines_nonempty s) as Hne.
  destruct (bool_decide (c = LF)) eqn:Hc.
  - apply bool_decide_eq_true in Hc as ->.
    destruct (split_lines s) as [|l ls] eqn:Hs; [done|].
    change (join_lines ([] :: l :: ls)) with (LF :: join_lines (l :: ls)).
    by rewrite IH.
  - destruct (split_lines s) as [|l ls] eqn:Hs; [done|].
    rewrite <- IH. by destruct ls.
Qed.

Lemma join_lines_drop_suffix k lines :
  join_lines (drop k lines) `suffix_of` join_lines lines.
Proof.
  revert k. induction lines as [|l ls IH]; intros k.
  - rewrite drop_nil. done.
  - destruct k as [|k]; [done|]. cbn [drop].
    etrans; [apply IH|]. destruct ls as [|l' ls]; [by apply suffix_nil|].
    cbn [join_lines]. exists (l ++ [LF]). by rewrite <- app_assoc.
Qed.

Lemma last_portion_suffix text : last_portion text `suffix_of` text.
Proof.
  unfold last_portion. cbv zeta.
  pose proof (join_lines_drop_suffix
                (Z.to_nat (Float.int_mul_0_6 (Z.of_nat (length (split_lines text)))))
                (split_lines text)) as H.
  by rewrite join_split_lines in H.
Qed.

Lemma header_loop_Some hs text span :
  header_loop hs text = Some span →
  ∃ h m, h ∈ hs ∧ search HEADER_FLAGS h text = Some m
         ∧ span = trim_at_end end_patterns (drop (m_start m) text).
Proof.
  induction hs as [|h hs IH]; [done|]. cbn [header_loop].
  destruct (search HEADER_FLAGS h text) as [m|] eqn:Hm.
  - intros [= <-]. exists h, m. split; [left | done].
  - intros (h' & m & Hin & Hs & ->)%IH. exists h', m. split; [by right | done].
Qed.

(** A header begins with a word character. *)
Lemma is_word_lower_char x : is_word (lower_char x) = is_word x.
Proof. destruct x as [[] [] [] [] [] [] [] []]; vm_compute; reflexivity. Qed.

Lemma lower_char_word x y : lower_char x = lower_char y → is_word y = is_word x.
Proof.
  intros Heq. by rewrite <- (is_word_lower_char y), <- Heq, is_word_lower_char.
Qed.

Lemma header_text_head words w :
  words ∈ HEADER_WORDS → header_text words w →
  ∃ x w', w = x :: w' ∧ is_word x = true.
Proof.
  assert (∀ (v : string) a, lower a = lower (str v) →
            from_option is_word false (head (str v)) = true →
            ∃ x a', a = x :: a' ∧ is_word x = true) as Hone.
  { intros v a Ha Hv. destruct (str v) as [|y v'] eqn:Hstr; [done|].
    destruct a as [|x a']; [done|]. injection Ha as Hx _.
    exists x, a'. split; [done|]. rewrite <- (lower_char_word x y Hx). done. }
  intros Hin Hw. unfold HEADER_WORDS in Hin.
  repeat (apply elem_of_cons in Hin as [->|Hin];
          [first [ by apply (Hone _ w Hw)
                 | destruct Hw as (a & sp & b & -> & Ha & _);
                   destruct (Hone _ a Ha) as (x & a' & -> & Hx); [done|];
                   by exists x, (a' ++ sp ++ b) ]|]).
  by apply elem_of_nil in Hin.
Qed.

Lemma end_pattern_starts_with_LF prev p x s e :
  e ∈ end_patterns → is_word x = true →
  match_here HEADER_FLAGS e (Cursor prev p (x :: s) []) = None.
Proof.
  intros ->%list_elem_of_singleton Hx.
  unfold match_here, seq. cbn [foldr run rest].
  replace (atom_matches HEADER_FLAGS (Lit LF) x) with false; [done|].
  symmetry. cbn. apply bool_decide_eq_false. intros Heq.
  apply (lower_char_caseless x LF) in Heq; [|by left]. by subst.
Qed.

Lemma trim_at_end_nonempty x s :
  is_word x = true → trim_at_end end_patterns (x :: s) ≠ [].
Proof.
  intros Hx. unfold end_patterns. cbn [trim_at_end].
  match goal with |- context [search HEADER_FLAGS ?e _] => set (e0 := e) end.
  destruct (search HEADER_FLAGS e0 (x :: s)) as [m|] eqn:Hm; [|done].
  apply search_leftmost in Hm as (_ & Hm & _).
  destruct (m_start m) as [|k] eqn:Hk; [|done].
  change (cursor_at (x :: s) 0) with (Cursor None 0 (x :: s) []) in Hm.
  rewrite (end_pattern_starts_with_LF None 0 x s e0) in Hm; [done| |done].
  by apply list_elem_of_singleton.
Qed.


End span.

